(** * mcp-proxy: a shallow embedding of the gateway's decision code

    The development follows the TypeScript sources:
    - [src/authentication.ts]  (class AuthenticationMiddleware),
    - [src/MCPProxy.ts]        (tapTransport, proxyServer, startSSEServer),
    - the event store used by [src/bin/mcp-proxy.ts].

    JavaScript strings are modelled as Rocq byte strings (well-formed
    UTF-8 text), JavaScript objects used as dictionaries as [gmap]s, and
    optional properties ([x?: string]) as [option string], [None] standing
    for [undefined]. *)

From Stdlib Require Import Ascii String ZArith List Lia.
From stdpp Require Import base decidable option list strings gmap pretty.

Local Open Scope string_scope.
Set Warnings "-register-all".
Set Default Proof Using "Type".
#[local] Arguments String.append !s1 s2 : simpl nomatch.

(** ** JavaScript operators the sources rely on *)

Module JS.

(** The double quote and the backslash, as one-character strings. *)
Definition dquote_char : ascii := "034"%char.
Definition backslash_char : ascii := "092"%char.
Definition dquote : string := String dquote_char EmptyString.
Definition backslash : string := String backslash_char EmptyString.

(** [ToBoolean] on a value of type [string | undefined]: [undefined]
    and the empty string are falsy, every other string is truthy. *)
Definition truthy (v : option string) : bool :=
  match v with
  | Some (String _ _) => true
  | Some EmptyString => false
  | None => false
  end.

(** [a || b] on [string | undefined] operands. *)
Definition or (a b : option string) : option string :=
  if truthy a then a else b.

(** [a || d] where [d] is a string literal: the result is a string. *)
Definition or_default (a : option string) (d : string) : string :=
  match a with
  | Some (String c s) => String c s
  | _ => d
  end.

(** [s.replace(/"/g, '\\"')]: every double quote gets a backslash
    in front of it. *)
Fixpoint escape_quotes (s : string) : string :=
  match s with
  | EmptyString => EmptyString
  | String c s' =>
      if Ascii.eqb c dquote_char
      then String backslash_char (String dquote_char (escape_quotes s'))
      else String c (escape_quotes s')
  end.

(** [Array.prototype.join]. *)
Fixpoint join (sep : string) (l : list string) : string :=
  match l with
  | [] => ""
  | [x] => x
  | x :: l' => x ++ sep ++ join sep l'
  end.

(** [String.prototype.startsWith]. *)
Definition startsWith (s p : string) : bool := String.prefix p s.

(** [String.prototype.toLowerCase], one ASCII character: the letters
    A-Z are mapped to a-z. *)
Definition toLowerCase_char (c : ascii) : ascii :=
  let n := nat_of_ascii c in
  if (65 <=? n)%nat && (n <=? 90)%nat then ascii_of_nat (n + 32) else c.

(** The three bytes of the Kelvin sign (U+212A) in UTF-8: the one
    character outside ASCII whose lowercase form is an ASCII letter
    (k). *)
Definition is_kelvin_sign (c1 c2 c3 : ascii) : bool :=
  ((nat_of_ascii c1 =? 226) && (nat_of_ascii c2 =? 132)
   && (nat_of_ascii c3 =? 170))%nat.

(** [String.prototype.toLowerCase]. The letters A-Z are mapped to a-z
    and the Kelvin sign to k. The other characters outside ASCII are
    left as they are: the code maps them to characters that are again
    outside ASCII, so the model and the code agree on every ASCII text
    and on whether a text is lowercased to a given ASCII name. *)
Fixpoint toLowerCase (s : string) : string :=
  match s with
  | EmptyString => EmptyString
  | String c s' =>
      match s' with
      | String c2 (String c3 r) =>
          if is_kelvin_sign c c2 c3
          then String "k"%char (toLowerCase r)
          else String (toLowerCase_char c) (toLowerCase s')
      | _ => String (toLowerCase_char c) (toLowerCase s')
      end
  end.

(** Is the text made of ASCII characters only, as an HTTP field name
    is? *)
Fixpoint is_ascii (s : string) : bool :=
  match s with
  | EmptyString => true
  | String c s' => (nat_of_ascii c <? 128)%nat && is_ascii s'
  end.

(** *** JSON.stringify on the values the sources serialise *)

Inductive json : Type :=
| JNull
| JNumber (n : Z)
| JString (s : string)
| JObject (fields : list (string * json)).

Definition hex_digit (n : nat) : ascii :=
  if (n <? 10)%nat then ascii_of_nat (48 + n) else ascii_of_nat (87 + n).

(** QuoteJSONString, one character: the two-character escapes, the
    [\u00XX] form for the other control characters, the character
    itself otherwise. *)
Definition quote_char (c : ascii) : string :=
  let n := nat_of_ascii c in
  if (n =? 8)%nat then backslash ++ "b"
  else if (n =? 9)%nat then backslash ++ "t"
  else if (n =? 10)%nat then backslash ++ "n"
  else if (n =? 12)%nat then backslash ++ "f"
  else if (n =? 13)%nat then backslash ++ "r"
  else if (n =? 34)%nat then backslash ++ dquote
  else if (n =? 92)%nat then backslash ++ backslash
  else if (n <? 32)%nat then
    backslash ++ "u00" ++
      String (hex_digit (n / 16)) (String (hex_digit (n mod 16)) EmptyString)
  else String c EmptyString.

Fixpoint quote_body (s : string) : string :=
  match s with
  | EmptyString => EmptyString
  | String c s' => quote_char c ++ quote_body s'
  end.

Definition quote (s : string) : string := dquote ++ quote_body s ++ dquote.

Fixpoint stringify (v : json) : string :=
  match v with
  | JNull => "null"
  | JNumber n => pretty n
  | JString s => quote s
  | JObject fields =>
      "{" ++ join ","
               ((fix members (fs : list (string * json)) : list string :=
                   match fs with
                   | [] => []
                   | (k, x) :: fs' => (quote k ++ ":" ++ stringify x) :: members fs'
                   end) fields)
          ++ "}"
  end.

(** *** Reading a string literal back (what [JSON.parse] does to it)

    The tests read a response with [JSON.parse(response.body)]; the
    decoder below is that reading for a string literal: it consumes the
    literal's characters up to the closing quote and returns the decoded
    text together with what follows the quote. *)

Definition simple_escape (x : ascii) : option ascii :=
  let n := nat_of_ascii x in
  if (n =? 98)%nat then Some (ascii_of_nat 8)          (* b *)
  else if (n =? 116)%nat then Some (ascii_of_nat 9)    (* t *)
  else if (n =? 110)%nat then Some (ascii_of_nat 10)   (* n *)
  else if (n =? 102)%nat then Some (ascii_of_nat 12)   (* f *)
  else if (n =? 114)%nat then Some (ascii_of_nat 13)   (* r *)
  else if (n =? 34)%nat then Some dquote_char
  else if (n =? 92)%nat then Some backslash_char
  else if (n =? 47)%nat then Some (ascii_of_nat 47)    (* solidus *)
  else None.

Definition hex_value (c : ascii) : option nat :=
  let n := nat_of_ascii c in
  if ((48 <=? n) && (n <=? 57))%nat then Some (n - 48)
  else if ((97 <=? n) && (n <=? 102))%nat then Some (n - 87)
  else if ((65 <=? n) && (n <=? 70))%nat then Some (n - 55)
  else None.

(** A [\uXXXX] escape, for the code units that fit a byte. *)
Definition unicode_escape (a b c d : ascii) : option ascii :=
  match hex_value a, hex_value b, hex_value c, hex_value d with
  | Some 0, Some 0, Some h, Some l => Some (ascii_of_nat (16 * h + l))
  | _, _, _, _ => None
  end.

Definition prepend (c : ascii) (r : option (string * string))
  : option (string * string) :=
  match r with
  | Some (s, rest) => Some (String c s, rest)
  | None => None
  end.

Fixpoint unquote_body (s : string) : option (string * string) :=
  match s with
  | EmptyString => None
  | String c r =>
      if Ascii.eqb c dquote_char then Some (EmptyString, r)
      else if Ascii.eqb c backslash_char then
        match r with
        | EmptyString => None
        | String x r1 =>
            match simple_escape x with
            | Some c' => prepend c' (unquote_body r1)
            | None =>
                if Ascii.eqb x "u"%char then
                  match r1 with
                  | String a (String b (String h (String l r2))) =>
                      match unicode_escape a b h l with
                      | Some c' => prepend c' (unquote_body r2)
                      | None => None
                      end
                  | _ => None
                  end
                else None
            end
        end
      else if (nat_of_ascii c <? 32)%nat then None
      else prepend c (unquote_body r)
  end.

(** A whole literal: the opening quote, then the body. *)
Definition unquote (s : string) : option (string * string) :=
  match s with
  | String c r => if Ascii.eqb c dquote_char then unquote_body r else None
  | EmptyString => None
  end.

(** [strip p s]: [s] without its prefix [p], when it has it. *)
Fixpoint strip (p s : string) : option string :=
  match p, s with
  | EmptyString, _ => Some s
  | String a p', String b s' => if Ascii.eqb a b then strip p' s' else None
  | String _ _, EmptyString => None
  end.

(** [p] occurs in [h] as a contiguous piece of text. *)
Definition occurs_in (p h : string) : Prop :=
  exists pre post, h = pre ++ p ++ post.

(** *** Operators used by the command-line entry point *)

(** [a ?? b]: the right operand only when the left one is [null] or
    [undefined]; an empty string is kept. *)
Definition nullish_or {A : Type} (a b : option A) : option A :=
  match a with
  | Some x => Some x
  | None => b
  end.

(** [Array.prototype.indexOf]: the first index holding [x], or -1. *)
Fixpoint indexOf (x : string) (l : list string) : Z :=
  match l with
  | [] => (-1)%Z
  | y :: l' =>
      if String.eqb y x then 0%Z
      else let i := indexOf x l' in
           if (i =? -1)%Z then (-1)%Z else (i + 1)%Z
  end.

(** [l.slice(from)] and [l.slice(0, to)] for indices that are not
    negative. *)
Definition slice_from (l : list string) (from : Z) : list string :=
  drop (Z.to_nat from) l.

Definition slice_to (l : list string) (to : Z) : list string :=
  take (Z.to_nat to) l.

(** *** Reading a quoted parameter value back

    What a client does with the text between the quotes of a challenge
    parameter (a quoted-string): a backslash makes the character after
    it literal; a lone backslash at the end is kept. *)
Fixpoint unescape_pairs (s : string) : string :=
  match s with
  | EmptyString => EmptyString
  | String c r =>
      if Ascii.eqb c backslash_char then
        match r with
        | String x r' => String x (unescape_pairs r')
        | EmptyString => String c EmptyString
        end
      else String c (unescape_pairs r)
  end.

(** Does the text hold the character? *)
Fixpoint has_char (x : ascii) (s : string) : bool :=
  match s with
  | EmptyString => false
  | String c r => Ascii.eqb c x || has_char x r
  end.

End JS.

(** ** src/authentication.ts *)

Module Authentication.

(** [AuthConfig.oauth.protectedResource]. *)
Record ProtectedResource : Type := mkProtectedResource {
  resource : option string
}.

(** [AuthConfig.oauth]. *)
Record OAuthConfig : Type := mkOAuthConfig {
  oauth_error : option string;
  oauth_error_description : option string;
  oauth_error_uri : option string;
  protectedResource : option ProtectedResource;
  realm : option string;
  oauth_scope : option string
}.

Record AuthConfig : Type := mkAuthConfig {
  apiKey : option string;
  oauth : option OAuthConfig
}.

(** The [options] argument of [getUnauthorizedResponse]. *)
Record Options : Type := mkOptions {
  error : option string;
  error_description : option string;
  error_uri : option string;
  scope : option string
}.

(** [options?.f]: [undefined] when [options] itself is. *)
Definition opt (f : Options -> option string) (options : option Options)
  : option string :=
  match options with
  | Some o => f o
  | None => None
  end.

Record UnauthorizedResponse : Type := mkResponse {
  body : string;
  headers : gmap string string
}.

Definition default_message : string :=
  "Unauthorized: Invalid or missing API key".

(** [name="value"], the template literals of the parameter list. *)
Definition param (name value : string) : string :=
  name ++ "=" ++ JS.dquote ++ value ++ JS.dquote.

(** [if (v) { params.push(`name="${v}"`) }]. *)
Definition push_if (name : string) (v : option string) : list string :=
  if JS.truthy v then [param name (default "" v)] else [].

(** The [params] array as it stands at line 66, for a configured
    [oauth] object. *)
Definition params (o : OAuthConfig) (options : option Options) : list string :=
  push_if "realm" (realm o)
  ++ match protectedResource o with
     | Some pr =>
         if JS.truthy (resource pr)
         then [param "resource_metadata"
                 (default "" (resource pr) ++ "/.well-known/oauth-protected-resource")]
         else []
     | None => []
     end
  ++ [param "error"
        (JS.or_default (JS.or (opt error options) (oauth_error o)) "invalid_token")]
  ++ [param "error_description"
        (JS.escape_quotes
           (JS.or_default
              (JS.or (opt error_description options) (oauth_error_description o))
              default_message))]
  ++ push_if "error_uri" (JS.or (opt error_uri options) (oauth_error_uri o))
  ++ push_if "scope" (JS.or (opt scope options) (oauth_scope o)).

(** The object literal handed to [JSON.stringify]. *)
Definition body_object (options : option Options) : JS.json :=
  JS.JObject
    [ ("error",
        JS.JObject
          [ ("code", JS.JNumber 401);
            ("message",
              JS.JString
                (JS.or_default (opt error_description options) default_message)) ]);
      ("id", JS.JNull);
      ("jsonrpc", JS.JString "2.0") ].

Definition response_headers (config : AuthConfig) (options : option Options)
  : gmap string string :=
  let headers : gmap string string := {[ "Content-Type" := "application/json" ]} in
  match oauth config with
  | Some o =>
      let ps := params o options in
      if (0 <? length ps)%nat
      then <[ "WWW-Authenticate" := "Bearer " ++ JS.join ", " ps ]> headers
      else headers
  | None => headers
  end.

Definition getUnauthorizedResponse (config : AuthConfig) (options : option Options)
  : UnauthorizedResponse :=
  {| body := JS.stringify (body_object options);
     headers := response_headers config options |}.

(** [JSON.parse(response.body).error.message], as the tests read it,
    for a body of the shape [getUnauthorizedResponse] writes: the text
    before the message literal, the literal, the text after it. *)
Definition envelope_prefix : string :=
  "{" ++ JS.dquote ++ "error" ++ JS.dquote ++ ":{"
      ++ JS.dquote ++ "code" ++ JS.dquote ++ ":401,"
      ++ JS.dquote ++ "message" ++ JS.dquote ++ ":".

Definition envelope_suffix : string :=
  "}," ++ JS.dquote ++ "id" ++ JS.dquote ++ ":null,"
       ++ JS.dquote ++ "jsonrpc" ++ JS.dquote ++ ":"
       ++ JS.dquote ++ "2.0" ++ JS.dquote ++ "}".

Definition error_message (body : string) : option string :=
  match JS.strip envelope_prefix body with
  | Some rest =>
      match JS.unquote rest with
      | Some (message, rest') =>
          if String.eqb rest' envelope_suffix then Some message else None
      | None => None
      end
  | None => None
  end.

(** The effective error_description in the words of the specification:
    the per-call override when given, otherwise the statically
    configured one when given, otherwise the generic default. *)
Definition effective_error_description_spec (config : AuthConfig)
    (options : option Options) : string :=
  match opt error_description options with
  | Some d => d
  | None =>
      match oauth config with
      | Some o =>
          match oauth_error_description o with
          | Some d => d
          | None => default_message
          end
      | None => default_message
      end
  end.

(** [req.headers[name]] has type [string | string[] | undefined]. *)
Inductive HeaderValue : Type :=
| HString (s : string)
| HArray (l : list string).

(** The part of [IncomingMessage] the gateway reads. *)
Record IncomingMessage : Type := mkRequest {
  method : option string;
  url : option string;
  req_headers : gmap string HeaderValue
}.

(** [ToBoolean] on [string | string[] | undefined]: an array is an
    object and so is truthy, even when empty. *)
Definition header_truthy (v : option HeaderValue) : bool :=
  match v with
  | Some (HString s) => JS.truthy (Some s)
  | Some (HArray _) => true
  | None => false
  end.

(** [typeof v === "string"]. *)
Definition is_string (v : option HeaderValue) : bool :=
  match v with
  | Some (HString _) => true
  | _ => false
  end.

(** [v === key] for a string [key]. *)
Definition strict_eq (v : option HeaderValue) (key : string) : bool :=
  match v with
  | Some (HString s) => String.eqb s key
  | _ => false
  end.

Definition validateRequest (config : AuthConfig) (req : IncomingMessage) : bool :=
  if negb (JS.truthy (apiKey config)) then true
  else
    let apiKey' := req_headers req !! "x-api-key" in
    if negb (header_truthy apiKey') || negb (is_string apiKey') then false
    else strict_eq apiKey' (default "" (apiKey config)).

(** [createMockRequest] of [authentication.test.ts], which mimics what
    Node's http parser does to header names: every name is lowercased
    before it is stored. [Object.entries] order, later entries win. *)
Definition lowercaseHeaders (hs : list (string * string)) : gmap string HeaderValue :=
  foldl (fun acc kv => <[ JS.toLowerCase kv.1 := HString kv.2 ]> acc) ∅ hs.

Definition createMockRequest (hs : list (string * string)) : IncomingMessage :=
  {| method := None; url := None; req_headers := lowercaseHeaders hs |}.

(** *** Fixtures of authentication.test.ts *)

Definition oauth_empty : OAuthConfig :=
  mkOAuthConfig None None None None None None.

Definition config_with_description : AuthConfig :=
  mkAuthConfig (Some "test")
    (Some (mkOAuthConfig (Some "invalid_request") (Some "Config error description")
             None (Some (mkProtectedResource (Some "https://example.com")))
             None None)).

Definition no_headers : IncomingMessage :=
  mkRequest None None ∅.

(** A text between double quotes. *)
Definition q (s : string) : string := JS.dquote ++ s ++ JS.dquote.

(** A configuration whose OAuth descriptor names only a protected
    resource. *)
Definition with_resource (r : string) : AuthConfig :=
  mkAuthConfig (Some "test")
    (Some (mkOAuthConfig None None None (Some (mkProtectedResource (Some r)))
             None None)).

(** The WWW-Authenticate header of the response, when there is one. *)
Definition challenge (config : AuthConfig) (options : option Options)
  : option string :=
  headers (getUnauthorizedResponse config options) !! "WWW-Authenticate".

(** *** Reading the parameter list *)

(** The name of a parameter [name="value"]: the text before the first
    equals sign. *)
Fixpoint name_of (p : string) : string :=
  match p with
  | EmptyString => EmptyString
  | String c r => if Ascii.eqb c "="%char then EmptyString else String c (name_of r)
  end.

(** The order in which [getUnauthorizedResponse] pushes parameters. *)
Definition parameter_order : list string :=
  ["realm"; "resource_metadata"; "error"; "error_description"; "error_uri"; "scope"].

(** The value of the last header of a list whose name is [name] once
    lowercased: what [createMockRequest] stores under [name]. *)
Fixpoint last_value (name : string) (hs : list (string * string)) : option string :=
  match hs with
  | [] => None
  | (n, v) :: hs' =>
      match last_value name hs' with
      | Some v' => Some v'
      | None => if String.eqb (JS.toLowerCase n) name then Some v else None
      end
  end.

(** Field names are compared without regard to the case of the letters
    A-Z: two characters are the same letter when they are equal or one
    is the capital of the other. *)
Definition same_letter (a b : ascii) : bool :=
  let x := nat_of_ascii a in
  let y := nat_of_ascii b in
  ((x =? y)
   || ((65 <=? x) && (x <=? 90) && (y =? x + 32))
   || ((65 <=? y) && (y <=? 90) && (x =? y + 32)))%nat.

Fixpoint same_name (a b : string) : bool :=
  match a, b with
  | EmptyString, EmptyString => true
  | String x a', String y b' => same_letter x y && same_name a' b'
  | _, _ => false
  end.

(** The value of the last header of a list whose name is [name] in any
    letter case. *)
Fixpoint last_named (name : string) (hs : list (string * string)) : option string :=
  match hs with
  | [] => None
  | (n, v) :: hs' =>
      match last_named name hs' with
      | Some v' => Some v'
      | None => if same_name n name then Some v else None
      end
  end.

(** A name with no capital letter, such as the names the code looks
    headers up by. *)
Fixpoint no_capital (s : string) : bool :=
  match s with
  | EmptyString => true
  | String c s' =>
      negb ((65 <=? nat_of_ascii c) && (nat_of_ascii c <=? 90))%nat && no_capital s'
  end.

End Authentication.

(** ** src/MCPProxy.ts: tapTransport *)

Module TapTransport.

Definition JSONRPCMessage : Type := JS.json.

(** The values that travel through a transport: nothing, a message, or
    an [Error] (identified by its text). *)
Inductive Value : Type :=
| VUndefined
| VMessage (m : JSONRPCMessage)
| VError (e : string).

(** [type TransportEvent]. *)
Inductive TransportEvent : Type :=
| EvClose
| EvOnClose
| EvOnError (error : Value)
| EvOnMessage (message : Value)
| EvSend (message : Value)
| EvStart.

(** How a promise settles (or, for a synchronous call, how it
    completes). *)
Inductive Outcome : Type :=
| Fulfilled (v : Value)
| Rejected (e : Value).

(** How a call to the event handler completes. *)
Inductive Completion : Type :=
| Returns
| Throws (e : Value).

(** Object references. *)
Abbreviation loc := nat.

(** The six properties that [tapTransport] reads and overwrites. *)
Inductive Kind : Type :=
| KClose | KOnClose | KOnError | KOnMessage | KSend | KStart.

Section WithWorld.

(** Everything outside the transport object itself: the channel under
    the transport, its owner's hooks, the diagnostics sink. *)
Context {W : Type}.

Definition EventHandler : Type := TransportEvent -> W -> Completion * W.

(** Function values.
    - [Native f]: code of the transport implementation or of its
      owner; [f] receives [this] and the argument list;
    - [Bound f this]: the result of [f.bind(this)];
    - [Tapped k h original]: the arrow function that [tapTransport]
      assigns to property [k], closed over the event handler and the
      bound original. *)
Inductive Fn : Type :=
| Native (f : loc -> list Value -> W -> Outcome * W)
| Bound (f : Fn) (this : loc)
| Tapped (k : Kind) (eventHandler : EventHandler) (original : option Fn).

(** interface Transport, as an object in the heap. *)
Record Transport : Type := mkTransport {
  close : Fn;
  onclose : option Fn;
  onerror : option Fn;
  onmessage : option Fn;
  send : Fn;
  start : Fn
}.

(** The heap maps references to transport objects. *)
Abbreviation Heap := (gmap nat Transport).

(** The first declared parameter of an arrow function: [undefined]
    when the caller passed nothing. *)
Definition arg0 (args : list Value) : Value := nth 0 args VUndefined.

(** The event each tapped property publishes. *)
Definition event_of (k : Kind) (args : list Value) : TransportEvent :=
  match k with
  | KClose => EvClose
  | KOnClose => EvOnClose
  | KOnError => EvOnError (arg0 args)
  | KOnMessage => EvOnMessage (arg0 args)
  | KSend => EvSend (arg0 args)
  | KStart => EvStart
  end.

(** The argument list each tapped property hands to its original:
    [originalClose?.()] against [originalSend?.(message)]. *)
Definition forwarded (k : Kind) (args : list Value) : list Value :=
  match k with
  | KClose | KOnClose | KStart => []
  | KOnError | KOnMessage | KSend => [arg0 args]
  end.

(** Calling a function value with a receiver and arguments. A tapped
    function is [async]: the handler runs first; if it throws, the
    promise is rejected and the original is not reached; otherwise the
    promise settles as the original does ([undefined] when there is no
    original). The originals [tapTransport] captures are bound
    functions, so the receiver handed to them plays no part. *)
Fixpoint call (f : Fn) (this : loc) (args : list Value) (w : W) : Outcome * W :=
  match f with
  | Native body => body this args w
  | Bound g this' => call g this' args w
  | Tapped k eventHandler original =>
      match eventHandler (event_of k args) w with
      | (Throws e, w') => (Rejected e, w')
      | (Returns, w') =>
          match original with
          | Some g => call g this (forwarded k args) w'
          | None => (Fulfilled VUndefined, w')
          end
      end
  end.

(** [hook?.(args)] with receiver [this]. *)
Definition call_opt (hook : option Fn) (this : loc) (args : list Value) (w : W)
  : Outcome * W :=
  match hook with
  | Some f => call f this args w
  | None => (Fulfilled VUndefined, w)
  end.

(** [f?.bind(transport)]. *)
Definition bind_opt (f : option Fn) (this : loc) : option Fn :=
  match f with
  | Some g => Some (Bound g this)
  | None => None
  end.

(** The six assignments of [tapTransport] on the object [obj] that
    lives at [transport]. *)
Definition instrument (transport : loc) (eventHandler : EventHandler)
    (obj : Transport) : Transport :=
  let originalClose := Bound (close obj) transport in
  let originalOnClose := bind_opt (onclose obj) transport in
  let originalOnError := bind_opt (onerror obj) transport in
  let originalOnMessage := bind_opt (onmessage obj) transport in
  let originalSend := Bound (send obj) transport in
  let originalStart := Bound (start obj) transport in
  {| close := Tapped KClose eventHandler (Some originalClose);
     onclose := Some (Tapped KOnClose eventHandler originalOnClose);
     onerror := Some (Tapped KOnError eventHandler originalOnError);
     onmessage := Some (Tapped KOnMessage eventHandler originalOnMessage);
     send := Tapped KSend eventHandler (Some originalSend);
     start := Tapped KStart eventHandler (Some originalStart) |}.

(** [tapTransport(transport, eventHandler)]: the assignments update
    the object in place; the function returns the reference it was
    given. *)
Definition tapTransport (heap : Heap) (transport : loc)
    (eventHandler : EventHandler) : Heap * loc :=
  (alter (instrument transport eventHandler) transport heap, transport).

(** One use of a transport by its clients: the three methods and the
    three inbound notifications. *)
Inductive Op : Type :=
| OpClose
| OpOnClose
| OpOnError (error : Value)
| OpOnMessage (message : Value)
| OpSend (message : Value)
| OpStart.

Definition perform (obj : Transport) (t : loc) (op : Op) (w : W) : Outcome * W :=
  match op with
  | OpClose => call (close obj) t [] w
  | OpOnClose => call_opt (onclose obj) t [] w
  | OpOnError e => call_opt (onerror obj) t [e] w
  | OpOnMessage m => call_opt (onmessage obj) t [m] w
  | OpSend m => call (send obj) t [m] w
  | OpStart => call (start obj) t [] w
  end.

Definition event_of_op (op : Op) : TransportEvent :=
  match op with
  | OpClose => EvClose
  | OpOnClose => EvOnClose
  | OpOnError e => EvOnError e
  | OpOnMessage m => EvOnMessage m
  | OpSend m => EvSend m
  | OpStart => EvStart
  end.

(** A sequence of uses, each starting where the previous one left the
    world; the outcomes are collected in order. *)
Fixpoint run (step : Op -> W -> Outcome * W) (ops : list Op) (w : W)
  : list Outcome * W :=
  match ops with
  | [] => ([], w)
  | op :: ops' =>
      let '(r, w1) := step op w in
      let '(rs, w2) := run step ops' w1 in
      (r :: rs, w2)
  end.

Definition perform_all (obj : Transport) (t : loc) : list Op -> W -> list Outcome * W :=
  run (perform obj t).

(** Publishing the event of a use and then running [step] on it, the
    shape the six tapped closures share: a handler that returns lets
    [step] run; one that throws ends the use with its error. *)
Definition published_then (eventHandler : EventHandler)
    (step : Op -> W -> Outcome * W) (op : Op) (w : W) : Outcome * W :=
  match eventHandler (event_of_op op) w with
  | (Throws e, w') => (Rejected e, w')
  | (Returns, w') => step op w'
  end.

(** Function values are finite terms: none contains itself. *)
Fixpoint Fn_size (f : Fn) : nat :=
  match f with
  | Native _ => 1
  | Bound g _ => S (Fn_size g)
  | Tapped _ _ original =>
      S (match original with Some g => Fn_size g | None => 0 end)
  end.

End WithWorld.

Arguments Fn : clear implicits.
Arguments Transport : clear implicits.
Abbreviation Heap W := (gmap nat (Transport W)).
Arguments EventHandler : clear implicits.

(** *** A transport with a diagnostics side channel

    The world is a pair: what the transport and its owner act on, and
    the handler's own log. *)
Section SideChannel.

Context {U S : Type}.
Variable record : TransportEvent -> S -> S.



End SideChannel.

(** *** Concrete transports *)

(** The world of the examples: the messages handed to the channel under
    the transport. *)
Definition Channel : Type := list Value.

Definition native_send : Fn Channel :=
  Native (fun _ args w => (Fulfilled VUndefined, (w ++ [arg0 args])%list)).

Definition native_noop : Fn Channel :=
  Native (fun _ _ w => (Fulfilled VUndefined, w)).

Definition plain_transport : Transport Channel :=
  {| close := native_noop; onclose := None; onerror := None;
     onmessage := None; send := native_send; start := native_noop |}.

Definition heap0 : Heap Channel := {[ 0 := plain_transport ]}.

Definition quiet : EventHandler Channel := fun _ w => (Returns, w).

Definition failing : EventHandler Channel :=
  fun _ w => (Throws (VError "handler failed"), w).

Definition ping : Value := VMessage (JS.JObject [("method", JS.JString "ping")]).




End TapTransport.

(** ** src/MCPProxy.ts: proxyServer *)

Module ProxyServer.

(** The request and notification schemas [proxyServer] imports from the
    SDK; a handler table is keyed by them. *)
Inductive Schema : Type :=
| CallToolRequestSchema
| CompleteRequestSchema
| GetPromptRequestSchema
| ListPromptsRequestSchema
| ListResourcesRequestSchema
| ListResourceTemplatesRequestSchema
| ListToolsRequestSchema
| LoggingMessageNotificationSchema
| ReadResourceRequestSchema.

#[export] Instance Schema_eq_dec : EqDecision Schema.
Proof. solve_decision. Defined.

Definition Schema_to_nat (s : Schema) : nat :=
  match s with
  | CallToolRequestSchema => 0
  | CompleteRequestSchema => 1
  | GetPromptRequestSchema => 2
  | ListPromptsRequestSchema => 3
  | ListResourcesRequestSchema => 4
  | ListResourceTemplatesRequestSchema => 5
  | ListToolsRequestSchema => 6
  | LoggingMessageNotificationSchema => 7
  | ReadResourceRequestSchema => 8
  end.

Definition Schema_of_nat (n : nat) : option Schema :=
  match n with
  | 0 => Some CallToolRequestSchema
  | 1 => Some CompleteRequestSchema
  | 2 => Some GetPromptRequestSchema
  | 3 => Some ListPromptsRequestSchema
  | 4 => Some ListResourcesRequestSchema
  | 5 => Some ListResourceTemplatesRequestSchema
  | 6 => Some ListToolsRequestSchema
  | 7 => Some LoggingMessageNotificationSchema
  | 8 => Some ReadResourceRequestSchema
  | _ => None
  end.

#[export] Instance Schema_countable : Countable Schema.
Proof.
  apply (inj_countable Schema_to_nat Schema_of_nat).
  intros []; reflexivity.
Defined.

(** The methods of the upstream [Client] that the handlers call. *)
Inductive ClientMethod : Type :=
| notification
| getPrompt
| listPrompts
| listResources
| listResourceTemplates
| readResource
| callTool
| listTools
| complete.

(** What a handler passes on: its whole argument ([args]) or the
    request parameters ([args.params]). *)
Inductive Passed : Type :=
| Args
| ArgsParams.

(** The arrow functions [async (args) => client.m(...)]: a handler is
    determined by the client it closes over, the method it calls and
    what it passes. *)
Record Handler : Type := mkHandler {
  upstream : nat;
  calls : ClientMethod;
  passes : Passed
}.

(** The handler tables of a [Server]. *)
Record Server : Type := mkServer {
  requestHandlers : gmap Schema Handler;
  notificationHandlers : gmap Schema Handler
}.

(** [new Server(...)]: no handler of the proxy's is registered yet. *)
Definition newServer : Server :=
  {| requestHandlers := ∅; notificationHandlers := ∅ |}.

Definition setRequestHandler (schema : Schema) (h : Handler) (server : Server)
  : Server :=
  {| requestHandlers := <[ schema := h ]> (requestHandlers server);
     notificationHandlers := notificationHandlers server |}.

Definition setNotificationHandler (schema : Schema) (h : Handler) (server : Server)
  : Server :=
  {| requestHandlers := requestHandlers server;
     notificationHandlers := <[ schema := h ]> (notificationHandlers server) |}.

(** A capability entry of [ServerCapabilities] is an object. *)
Record Capability : Type := mkCapability {
  listChanged : option bool;
  subscribe : option bool
}.

Record ServerCapabilities : Type := mkCapabilities {
  logging : option Capability;
  prompts : option Capability;
  resources : option Capability;
  tools : option Capability
}.

(** [serverCapabilities?.group] used as a condition: an object is
    truthy whatever it holds, [undefined] is falsy. *)
Definition has (group : ServerCapabilities -> option Capability)
    (serverCapabilities : option ServerCapabilities) : bool :=
  match serverCapabilities with
  | Some caps => match group caps with Some _ => true | None => false end
  | None => false
  end.

Definition proxyServer (server : Server) (client : nat)
    (serverCapabilities : option ServerCapabilities) : Server :=
  let server :=
    if has logging serverCapabilities
    then setNotificationHandler LoggingMessageNotificationSchema
           (mkHandler client notification Args) server
    else server in
  let server :=
    if has prompts serverCapabilities
    then setRequestHandler ListPromptsRequestSchema
           (mkHandler client listPrompts ArgsParams)
           (setRequestHandler GetPromptRequestSchema
              (mkHandler client getPrompt ArgsParams) server)
    else server in
  let server :=
    if has resources serverCapabilities
    then setRequestHandler ReadResourceRequestSchema
           (mkHandler client readResource ArgsParams)
           (setRequestHandler ListResourceTemplatesRequestSchema
              (mkHandler client listResourceTemplates ArgsParams)
              (setRequestHandler ListResourcesRequestSchema
                 (mkHandler client listResources ArgsParams) server))
    else server in
  let server :=
    if has tools serverCapabilities
    then setRequestHandler ListToolsRequestSchema
           (mkHandler client listTools ArgsParams)
           (setRequestHandler CallToolRequestSchema
              (mkHandler client callTool ArgsParams) server)
    else server in
  setRequestHandler CompleteRequestSchema
    (mkHandler client complete ArgsParams) server.

(** The schemas of each capability-gated group, with the table each is
    registered in and the client method its handler calls. *)
Inductive Group : Type := Logging | Prompts | Resources | Tools.

Definition group_capability (g : Group)
  : ServerCapabilities -> option Capability :=
  match g with
  | Logging => logging
  | Prompts => prompts
  | Resources => resources
  | Tools => tools
  end.

Definition handlers_of (server : Server) (s : Schema) : option Handler :=
  match s with
  | LoggingMessageNotificationSchema => notificationHandlers server !! s
  | _ => requestHandlers server !! s
  end.

Definition group_wiring (g : Group) : list (Schema * ClientMethod * Passed) :=
  match g with
  | Logging => [ (LoggingMessageNotificationSchema, notification, Args) ]
  | Prompts => [ (GetPromptRequestSchema, getPrompt, ArgsParams);
                 (ListPromptsRequestSchema, listPrompts, ArgsParams) ]
  | Resources => [ (ListResourcesRequestSchema, listResources, ArgsParams);
                   (ListResourceTemplatesRequestSchema, listResourceTemplates, ArgsParams);
                   (ReadResourceRequestSchema, readResource, ArgsParams) ]
  | Tools => [ (CallToolRequestSchema, callTool, ArgsParams);
               (ListToolsRequestSchema, listTools, ArgsParams) ]
  end.

(** What [proxyServer] writes in each table for a schema, if anything:
    the statements of the function read schema by schema. *)
Definition request_wiring (client : nat) (serverCapabilities : option ServerCapabilities)
    (schema : Schema) : option Handler :=
  match schema with
  | CompleteRequestSchema => Some (mkHandler client complete ArgsParams)
  | GetPromptRequestSchema =>
      if has prompts serverCapabilities
      then Some (mkHandler client getPrompt ArgsParams) else None
  | ListPromptsRequestSchema =>
      if has prompts serverCapabilities
      then Some (mkHandler client listPrompts ArgsParams) else None
  | ListResourcesRequestSchema =>
      if has resources serverCapabilities
      then Some (mkHandler client listResources ArgsParams) else None
  | ListResourceTemplatesRequestSchema =>
      if has resources serverCapabilities
      then Some (mkHandler client listResourceTemplates ArgsParams) else None
  | ReadResourceRequestSchema =>
      if has resources serverCapabilities
      then Some (mkHandler client readResource ArgsParams) else None
  | CallToolRequestSchema =>
      if has tools serverCapabilities
      then Some (mkHandler client callTool ArgsParams) else None
  | ListToolsRequestSchema =>
      if has tools serverCapabilities
      then Some (mkHandler client listTools ArgsParams) else None
  | LoggingMessageNotificationSchema => None
  end.

Definition notification_wiring (client : nat)
    (serverCapabilities : option ServerCapabilities) (schema : Schema)
  : option Handler :=
  match schema with
  | LoggingMessageNotificationSchema =>
      if has logging serverCapabilities
      then Some (mkHandler client notification Args) else None
  | _ => None
  end.

End ProxyServer.

(** ** src/MCPProxy.ts: startSSEServer *)

Module StartSSEServer.

Import Authentication.

(** How an awaited promise settles. *)
Inductive Settled : Type :=
| Resolved
| RejectedWith (error : string).

(** [String(v)] for a header value: an array is joined with commas. *)
Definition header_to_string (v : option HeaderValue) : string :=
  match v with
  | Some (HString s) => s
  | Some (HArray l) => JS.join "," l
  | None => "undefined"
  end.

(** Response headers as [res.setHeader] keeps them: names compare
    case-insensitively, so the table is keyed by the lowercased name. *)
Definition setHeader (name value : string) (hs : gmap string string)
  : gmap string string :=
  <[ JS.toLowerCase name := value ]> hs.

Definition getHeader (name : string) (hs : gmap string string) : option string :=
  hs !! JS.toLowerCase name.

(** What the request listener does with the response once the CORS
    block is behind it. *)
Inductive Reply : Type :=
| Head (status : nat) (body : option string)
    (* res.writeHead(status).end(body) *)
| EventStream
    (* the response becomes the stream of a new SSEServerTransport *)
| PostMessage (sessionId : string)
    (* the response is handed to activeTransport.handlePostMessage *)
| NotATransport (sessionId : string).
    (* activeTransports[sessionId] is a member inherited from
       Object.prototype: handlePostMessage is not a function, the
       listener throws and nothing is written to the response *)

(** [activeTransports] is a plain object ([{}]): besides the transports
    stored in it, a lookup finds the members every object inherits from
    [Object.prototype], all of them truthy. *)
Definition Object_prototype_members : list string :=
  [ "constructor"; "__proto__"; "hasOwnProperty"; "isPrototypeOf";
    "propertyIsEnumerable"; "toLocaleString"; "toString"; "valueOf";
    "__defineGetter__"; "__defineSetter__"; "__lookupGetter__";
    "__lookupSetter__" ].

Definition inherited (name : string) : bool :=
  existsb (String.eqb name) Object_prototype_members.

(** The value of [activeTransports[sessionId]]. *)
Inductive Found : Type :=
| Own (transport : nat)
| Inherited
| Undefined.

Definition get_transport (registry : gmap string nat) (sessionId : string) : Found :=
  match registry !! sessionId with
  | Some t => Own t
  | None => if inherited sessionId then Inherited else Undefined
  end.

Record Handled : Type := mkHandled {
  set_headers : gmap string string;
  console_errors : list string;
  reply : Reply
}.

(** Effects of session set-up and teardown that are visible outside the
    listener. *)
Inductive Effect : Type :=
| ServerCloseSettled (server : nat) (result : Settled)
    (* await server.close() has settled *)
| ConsoleError (message : string)
| OnConnectCalled (server : nat)
| OnCloseCalled (server : nat).

#[export] Instance Settled_eq_dec : EqDecision Settled.
Proof. solve_decision. Defined.

#[export] Instance Effect_eq_dec : EqDecision Effect.
Proof. solve_decision. Defined.

(** What the close listener of a session closes over. *)
Record Session : Type := mkSession {
  sessionId : string;
  server : nat
}.

(** The gateway: [activeTransports] (the own properties of the
    registry object: session id to transport, a transport being
    identified by the response it writes to), the close listeners
    registered on responses, and the effects so far. *)
Record State : Type := mkState {
  activeTransports : gmap string nat;
  closeListeners : gmap nat Session;
  effects : list Effect
}.

Definition emit (e : Effect) (st : State) : State :=
  {| activeTransports := activeTransports st;
     closeListeners := closeListeners st;
     effects := effects st ++ [e] |}.

Section Gateway.

(** [new URL(s).origin], with [None] when the constructor throws.
    The URL parser belongs to the platform. *)
Variable URL_origin : string -> option string.

(** [new URL(url, "https://example.com").searchParams.get("sessionId")],
    with [None] for [null]. *)
Variable sessionId_param : string -> option string.

(** The options of [startSSEServer]. *)
Variable endpoint : string.
Variable onConnect : bool.   (* is the optional callback supplied? *)
Variable onClose : bool.

(** Lines 196-207. *)
Definition cors (req : IncomingMessage) : gmap string string * list string :=
  let origin := req_headers req !! "origin" in
  if header_truthy origin then
    match URL_origin (header_to_string origin) with
    | Some o =>
        (setHeader "Access-Control-Allow-Headers" "*"
           (setHeader "Access-Control-Allow-Methods" "GET, POST, OPTIONS"
              (setHeader "Access-Control-Allow-Credentials" "true"
                 (setHeader "Access-Control-Allow-Origin" o ∅))),
         [])
    | None => (∅, ["Error parsing origin:"])
    end
  else (∅, []).

Definition method_is (req : IncomingMessage) (m : string) : bool :=
  match method req with
  | Some m' => String.eqb m' m
  | None => false
  end.

Definition url_is (req : IncomingMessage) (u : string) : bool :=
  match url req with
  | Some u' => String.eqb u' u
  | None => false
  end.

(** Lines 209-279. *)
Definition route (st : State) (req : IncomingMessage) : Reply :=
  if method_is req "OPTIONS" then Head 204 None
  else if method_is req "GET" && url_is req "/ping" then Head 200 (Some "pong")
  else if method_is req "GET" && url_is req endpoint then EventStream
  else if method_is req "POST"
          && match url req with
             | Some u => JS.startsWith u "/messages"
             | None => false
             end
  then
    let sessionId := sessionId_param (default "" (url req)) in
    if negb (JS.truthy sessionId) then Head 400 (Some "No sessionId")
    else
      match get_transport (activeTransports st) (default "" sessionId) with
      | Undefined => Head 400 (Some "No active transport")
      | Own _ => PostMessage (default "" sessionId)
      | Inherited => NotATransport (default "" sessionId)
      end
  else Head 404 None.

(** The request listener: the CORS block, then routing. *)
Definition handle (st : State) (req : IncomingMessage) : Handled :=
  let '(hs, errs) := cors req in
  {| set_headers := hs; console_errors := errs; reply := route st req |}.

(** *** Session set-up (lines 221-251) *)

(** The three awaits of the set-up, as the environment settles them:
    the server [createServer] produced (or its rejection),
    [server.connect] and [transport.send]. *)
Record SetUp : Type := mkSetUp {
  created : option nat;
  connected : Settled;
  sent : Settled
}.

(** The set-up for a GET on the endpoint whose response is [res] and
    whose fresh transport has session id [sid], a UUID the transport
    minted. A rejected await ends the listener there. *)
Definition open_session (res : nat) (sid : string) (a : SetUp) (st : State) : State :=
  match created a with
  | None => st
  | Some srv =>
      let st1 := {| activeTransports := <[ sid := res ]> (activeTransports st);
                    closeListeners := closeListeners st;
                    effects := effects st |} in
      match connected a, sent a with
      | Resolved, Resolved =>
          let st2 := if onConnect then emit (OnConnectCalled srv) st1 else st1 in
          {| activeTransports := activeTransports st2;
             closeListeners := <[ res := mkSession sid srv ]> (closeListeners st2);
             effects := effects st2 |}
      | _, _ => st1
      end
  end.

(** *** The close listener (lines 238-248), statement by statement *)

(** try { await server.close() } catch (error) { console.error(...) } *)
Definition await_server_close (s : Session) (result : Settled) (st : State) : State :=
  let st1 := emit (ServerCloseSettled (server s) result) st in
  match result with
  | Resolved => st1
  | RejectedWith _ => emit (ConsoleError "Error closing server:") st1
  end.

(** delete activeTransports[transport.sessionId] *)
Definition delete_transport (s : Session) (st : State) : State :=
  {| activeTransports := delete (sessionId s) (activeTransports st);
     closeListeners := closeListeners st;
     effects := effects st |}.

(** onClose?.(server) *)
Definition call_onClose (s : Session) (st : State) : State :=
  if onClose then emit (OnCloseCalled (server s)) st else st.

(** The three statements of the listener, in the order of the source. *)
Definition close_listener_statements (s : Session) (result : Settled)
  : list (State -> State) :=
  [ await_server_close s result; delete_transport s; call_onClose s ].

(** Running statements one after the other, and the states the run goes
    through: the state after each statement. *)
Definition run_statements (statements : list (State -> State)) (st : State) : State :=
  fold_left (fun st statement => statement st) statements st.

Fixpoint states_through (statements : list (State -> State)) (st : State)
  : list State :=
  match statements with
  | [] => []
  | statement :: rest => statement st :: states_through rest (statement st)
  end.

Definition close_listener (s : Session) (result : Settled) (st : State) : State :=
  run_statements (close_listener_statements s result) st.

(** The response [res] emits its close event; [result] is how
    [server.close()] will settle. With no listener registered on
    [res] the event has no effect. *)
Definition res_close (res : nat) (result : Settled) (st : State) : State :=
  match closeListeners st !! res with
  | Some s => close_listener s result st
  | None => st
  end.

End Gateway.

(** *** A fragment of the platform's URL parser

    [new URL(s).origin] for the inputs used in the examples below:
    - a string with no colon has no scheme, and with no base URL the
      constructor throws;
    - for [http://host...] and [https://host...], with a host made of
      ASCII letters and dots (such as [a.example]) and no port, the
      origin is the scheme, [://] and the lowercased host.
    Other inputs are outside the fragment, which rejects them. *)

Fixpoint take_while (p : ascii -> bool) (s : string) : string :=
  match s with
  | EmptyString => EmptyString
  | String c s' => if p c then String c (take_while p s') else EmptyString
  end.

Fixpoint drop_while (p : ascii -> bool) (s : string) : string :=
  match s with
  | EmptyString => EmptyString
  | String c s' => if p c then drop_while p s' else s
  end.

Definition host_char (c : ascii) : bool :=
  let n := nat_of_ascii (JS.toLowerCase_char c) in
  ((97 <=? n) && (n <=? 122) || (n =? 46))%nat.

Definition path_start (c : ascii) : bool :=
  let n := nat_of_ascii c in
  ((n =? 47) || (n =? 63) || (n =? 35))%nat.

Definition strip_prefix (p s : string) : option string :=
  if String.prefix p s
  then Some (String.substring (String.length p) (String.length s - String.length p) s)
  else None.

Definition origin_of_authority (scheme rest : string) : option string :=
  let host := take_while host_char rest in
  match host, drop_while host_char rest with
  | EmptyString, _ => None
  | _, EmptyString => Some (scheme ++ "://" ++ JS.toLowerCase host)
  | _, String c _ =>
      if path_start c then Some (scheme ++ "://" ++ JS.toLowerCase host) else None
  end.

Definition URL_origin_fragment (s : string) : option string :=
  let s' := JS.toLowerCase (String.substring 0 8 s) in
  match strip_prefix "https://" s', strip_prefix "http://" s' with
  | Some _, _ =>
      origin_of_authority "https"
        (String.substring 8 (String.length s - 8) s)
  | None, Some _ =>
      origin_of_authority "http"
        (String.substring 7 (String.length s - 7) s)
  | None, None => None
  end.

(** *** Observing the close listener *)

(** What the listener appended to the effects of [st]. *)
Definition appended (st st' : State) : list Effect :=
  drop (length (effects st)) (effects st').

(** The effects of the first statement of the listener. *)
Definition close_effects (s : Session) (result : Settled) : list Effect :=
  ServerCloseSettled (server s) result
    :: match result with
       | Resolved => []
       | RejectedWith _ => [ConsoleError "Error closing server:"]
       end.

(** The state in which [onClose] is about to be called. *)
Definition before_onClose (s : Session) (result : Settled) (st : State) : State :=
  delete_transport s (await_server_close s result st).

(** *** Sample requests and sessions *)

(** A request with method [m], path [u] and Origin header [o]. *)
Definition request_with_origin (m u o : string) : IncomingMessage :=
  mkRequest (Some m) (Some u) {[ "origin" := HString o ]}.

(** A gateway with no session. *)
Definition idle : State := mkState ∅ ∅ [].

(** A session on response 1 with session id [abc] and server 7. *)
Definition one_session : State :=
  open_session true 1 "abc" (mkSetUp (Some 7) Resolved Resolved)
    (mkState ∅ ∅ []).

(** *** Shutting the gateway down (lines 288-305) *)

(** What the [close] function of the returned object does, step by
    step. *)
Inductive ShutdownStep : Type :=
| TransportClosed (transport : nat) (result : Settled)
    (* await transport.close() has settled *)
| HttpServerClosed (error : option string).
    (* httpServer.close has called back *)

(** for (const transport of ...) { await transport.close(); } : a
    rejection leaves the loop and the function. *)
Fixpoint close_transports (transports : list nat) (transport_close : nat -> Settled)
  : list ShutdownStep * Settled :=
  match transports with
  | [] => ([], Resolved)
  | t :: ts =>
      match transport_close t with
      | Resolved =>
          let '(steps, r) := close_transports ts transport_close in
          (TransportClosed t Resolved :: steps, r)
      | RejectedWith e => ([TransportClosed t (RejectedWith e)], RejectedWith e)
      end
  end.

(** [close]: [transports] is [Object.values(activeTransports)],
    [transport_close] how each [transport.close()] settles, and
    [http_error] the error [httpServer.close] calls back with, if any. *)
Definition close (transports : list nat) (transport_close : nat -> Settled)
    (http_error : option string) : list ShutdownStep * Settled :=
  match close_transports transports transport_close with
  | (steps, Resolved) =>
      ((steps ++ [HttpServerClosed http_error])%list,
       match http_error with
       | Some e => RejectedWith e
       | None => Resolved
       end)
  | (steps, RejectedWith e) => (steps, RejectedWith e)
  end.

(** *** The life of a gateway: sessions opening and responses closing *)

Inductive Event : Type :=
| Opened (res : nat) (sid : string) (a : SetUp)
| ResponseClosed (res : nat) (result : Settled).

Definition step (onConnect onClose : bool) (st : State) (e : Event) : State :=
  match e with
  | Opened res sid a => open_session onConnect res sid a st
  | ResponseClosed res result => res_close onClose res result st
  end.

Definition run_events (onConnect onClose : bool) (es : list Event) (st : State)
  : State :=
  fold_left (step onConnect onClose) es st.

(** Every onClose of a list of effects has an onConnect for the same
    server before it. *)
Definition preceded (l : list Effect) : Prop :=
  forall pre post srv,
    l = (pre ++ OnCloseCalled srv :: post)%list -> In (OnConnectCalled srv) pre.

(** The invariant of the gateway: no onClose without an earlier
    onConnect for the same server, and every registered close listener
    belongs to a server that onConnect has seen. *)
Definition paired (st : State) : Prop :=
  preceded (effects st)
  /\ forall res s, closeListeners st !! res = Some s ->
                   In (OnConnectCalled (server s)) (effects st).

End StartSSEServer.

(** ** The event log behind resumable streams

    [src/bin/mcp-proxy.ts] constructs an [InMemoryEventStore] and hands it
    to the HTTP server; the module that defines the class is not among
    the sources at hand. *)

Module EventLog.

Definition Message : Type := JS.json.

(** Modelled from the spec: the StreamEvent of the data model (stream
    id, event id, payload), which the missing event log stores. *)
Record StreamEvent : Type := mkEvent {
  streamId : string;
  eventId : nat;
  payload : Message
}.

(** Modelled from the spec: the store of the in-memory event log, whose
    class is missing from the sources. Each stream id maps to its events
    in append order; nothing is ever evicted. *)
Abbreviation Log := (gmap string (list StreamEvent)).

(** Modelled from the spec: the log of the missing event log at
    construction, with no stream in it. *)
Definition empty : Log := ∅.

(** Modelled from the spec: the events the missing event log holds for a
    stream; none for a stream it does not know. *)
Definition stored (sid : string) (log : Log) : list StreamEvent :=
  default [] (log !! sid).

(** Modelled from the spec: [append(streamId, message)] of the missing
    event log. It assigns the next integer for that stream, starting at
    1, stores the event and returns the id. *)
Definition append (sid : string) (message : Message) (log : Log) : Log * nat :=
  let id := S (length (stored sid log)) in
  (<[ sid := (stored sid log ++ [mkEvent sid id message])%list ]> log, id).

(** Modelled from the spec: the events [replay(streamId, afterEventId,
    deliver)] of the missing event log hands to [deliver], in the order
    of the calls: the stored events of the stream are visited in the
    order they are held and those with [eventId > afterEventId] are
    delivered. *)
Definition deliveries (sid : string) (afterEventId : nat) (log : Log)
  : list StreamEvent :=
  List.filter (fun e => (afterEventId <? eventId e)%nat) (stored sid log).

(** Modelled from the spec: [replay] of the missing event log, with the
    callback [deliver] acting on the receiver's state [D]. *)
Definition replay {D : Type} (sid : string) (afterEventId : nat)
    (deliver : StreamEvent -> D -> D) (log : Log) (d : D) : D :=
  fold_left (fun d e => deliver e d) (deliveries sid afterEventId log) d.

(** Modelled from the spec: the states of the missing event log that a
    program can hold, the empty one and those obtained by appending. *)
Inductive reachable : Log -> Prop :=
| reachable_empty : reachable empty
| reachable_append sid message log :
    reachable log -> reachable (append sid message log).1.

(** A message carrying a number. *)
Definition note (n : Z) : Message := JS.JObject [("id", JS.JNumber n)].

(** Three events on stream [a], one on stream [b]. *)
Definition sample_log : Log :=
  (append "a" (note 3)
     (append "b" (note 10)
        (append "a" (note 2)
           (append "a" (note 1) empty).1).1).1).1.

End EventLog.

(** ** src/bin/mcp-proxy.ts: the command line *)

Module McpProxyBin.

(** The value of a string option as the option parser leaves it: a
    string, or an array of strings when the option was given more than
    once. *)
Inductive OptionValue : Type :=
| Single (s : string)
| Repeated (l : list string).

(** The part of the parsed options ([argv]) the entry point reads. *)
Record Argv : Type := mkArgv {
  command : option string;
  args : option (list string);
  server : option OptionValue;
  endpoint : option OptionValue;
  sseEndpoint : option OptionValue;
  streamEndpoint : option OptionValue
}.

(** [ToBoolean] on an option value: an array is truthy, even empty. *)
Definition value_truthy (v : option OptionValue) : bool :=
  match v with
  | Some (Single s) => JS.truthy (Some s)
  | Some (Repeated _) => true
  | None => false
  end.

(** [v !== literal]: an array is never identical to a string. *)
Definition differs_from (v : option OptionValue) (literal : string) : bool :=
  match v with
  | Some (Single s) => negb (String.eqb s literal)
  | Some (Repeated _) => true
  | None => true
  end.

(** The values the option parser lets through for [server], which is
    declared with the choices [sse] and [stream]: every value given must
    be one of the two. *)
Definition is_choice (s : string) : bool :=
  String.eqb s "sse" || String.eqb s "stream".

Definition server_allowed (v : option OptionValue) : bool :=
  match v with
  | None => true
  | Some (Single s) => is_choice s
  | Some (Repeated l) => forallb is_choice l
  end.

(** process.argv.slice(2) *)
Definition processArgs (argv : list string) : list string :=
  JS.slice_from argv 2.

(** processArgs.indexOf("--") *)
Definition doubleDashIndex (processArgs : list string) : Z :=
  JS.indexOf "--" processArgs.

(** Lines 29-37: what goes to the option parser and what follows the
    separator. *)
Definition mcpProxyArgs (processArgs : list string) : list string :=
  if negb (doubleDashIndex processArgs =? -1)%Z
  then JS.slice_to processArgs (doubleDashIndex processArgs)
  else processArgs.

Definition commandAndArgs (processArgs : list string) : list string :=
  if negb (doubleDashIndex processArgs =? -1)%Z
  then JS.slice_from processArgs (doubleDashIndex processArgs + 1)
  else [].

(** Lines 93-111: the command to spawn and its arguments, or the error
    thrown. *)
Definition finalCommandAndArgs (processArgs : list string) (argv : Argv)
  : string + (string * option (list string)) :=
  if negb (doubleDashIndex processArgs =? -1)%Z then
    if negb (JS.truthy (command argv))
    then inl "No command specified before -- separator"
    else inr (default "" (command argv), Some (commandAndArgs processArgs))
  else
    if negb (JS.truthy (command argv))
    then inl "No command specified"
    else inr (default "" (command argv), args argv).

(** Lines 172-173: the endpoints handed to [startHTTPServer], [None]
    standing for a disabled family. *)
Definition sseEndpoint_option (argv : Argv) : option OptionValue :=
  if value_truthy (server argv) && differs_from (server argv) "sse"
  then None
  else JS.nullish_or (sseEndpoint argv) (endpoint argv).

Definition streamEndpoint_option (argv : Argv) : option OptionValue :=
  if value_truthy (server argv) && differs_from (server argv) "stream"
  then None
  else JS.nullish_or (streamEndpoint argv) (endpoint argv).

End McpProxyBin.

(** * Properties *)

(** ** JavaScript helpers *)

Module JSFacts.

Import JS.

Lemma append_assoc (a b c : string) : (a ++ b) ++ c = a ++ b ++ c.
Proof. induction a as [|x a IH]; simpl; [reflexivity | now rewrite IH]. Qed.

Lemma append_nil_r (a : string) : a ++ "" = a.
Proof. induction a as [|x a IH]; simpl; [reflexivity | now rewrite IH]. Qed.

(** Decoding undoes [quote_char], whatever follows. *)
Lemma unquote_quote_char (c : ascii) (rest : string) :
  unquote_body (quote_char c ++ rest) = prepend c (unquote_body rest).
Proof.
  destruct c as [[] [] [] [] [] [] [] []]; reflexivity.
Qed.

(** Reading back a quoted body: the text is recovered and the reader
    stops right after the closing quote. *)
Lemma unquote_quote_body (s rest : string) :
  unquote_body (quote_body s ++ String dquote_char rest) = Some (s, rest).
Proof.
  induction s as [|c s IH]; [reflexivity|].
  cbn [quote_body].
  rewrite append_assoc, unquote_quote_char, IH. reflexivity.
Qed.

Lemma unquote_quote (s rest : string) :
  unquote (quote s ++ rest) = Some (s, rest).
Proof.
  unfold quote, dquote. simpl.
  rewrite append_assoc. simpl. apply unquote_quote_body.
Qed.

Lemma strip_append (p s : string) : strip p (p ++ s) = Some s.
Proof.
  induction p as [|a p IH]; simpl; [reflexivity|].
  now rewrite Ascii.eqb_refl.
Qed.

(** [quote] is injective: two texts with the same literal are equal. *)
Lemma quote_inj (s1 s2 : string) : quote s1 = quote s2 -> s1 = s2.
Proof.
  intros H.
  pose proof (unquote_quote s1 "") as H1.
  pose proof (unquote_quote s2 "") as H2.
  rewrite H in H1. congruence.
Qed.

(** An element of an array shows up in the joined string. *)
Lemma occurs_in_join (sep p : string) (l : list string) :
  In p l -> occurs_in p (join sep l).
Proof.
  induction l as [|x l IH]; [intros []|].
  intros [->|Hin].
  - destruct l as [|y l].
    + exists "", "". simpl. now rewrite append_nil_r.
    + exists "", (sep ++ join sep (y :: l)). reflexivity.
  - destruct l as [|y l]; [destruct Hin|].
    destruct (IH Hin) as (pre & post & Heq).
    exists (x ++ sep ++ pre), post.
    change (join sep (x :: y :: l)) with (x ++ sep ++ join sep (y :: l)).
    rewrite Heq. now rewrite !append_assoc.
Qed.

Lemma occurs_in_prefixed (a p h : string) :
  occurs_in p h -> occurs_in p (a ++ h).
Proof.
  intros (pre & post & ->). exists (a ++ pre), post.
  now rewrite append_assoc.
Qed.

End JSFacts.

(** ** src/authentication.ts *)

Module AuthenticationSpec.

Import JS JSFacts Authentication.

(** The body is the serialised envelope whose message is [m]. *)
Lemma body_shape (config : AuthConfig) (options : option Options) :
  body (getUnauthorizedResponse config options)
  = envelope_prefix
      ++ quote (or_default (opt error_description options) default_message)
      ++ envelope_suffix.
Proof.
  unfold getUnauthorizedResponse, body_object. cbn [body].
  generalize (or_default (opt error_description options) default_message).
  intros m. cbn [stringify join].
  rewrite !append_assoc. reflexivity.
Qed.

Lemma error_message_envelope (m : string) :
  error_message (envelope_prefix ++ quote m ++ envelope_suffix) = Some m.
Proof.
  unfold error_message.
  rewrite strip_append, unquote_quote, String.eqb_refl. reflexivity.
Qed.

(** What the body's message is, for every configuration. *)
Lemma error_message_body (config : AuthConfig) (options : option Options) :
  error_message (body (getUnauthorizedResponse config options))
  = Some (or_default (opt error_description options) default_message).
Proof. rewrite body_shape. apply error_message_envelope. Qed.

(** C1: the JSON body's error.message is meant to be the effective
    error_description - the override of the call, otherwise the
    configured oauth.error_description, otherwise the default. The code
    departs from it: for a configuration whose oauth.error_description
    is [Config error description] and a call with no override, the
    effective description is the configured one, but the message read
    from the body the code returns is the default message. *)
Lemma C1_body_ignores_configured_description :
  error_message (body (getUnauthorizedResponse config_with_description None))
  = Some default_message
  /\ effective_error_description_spec config_with_description None
     = "Config error description"
  /\ error_message (body (getUnauthorizedResponse config_with_description None))
     <> Some (effective_error_description_spec config_with_description None).
Proof.
  split; [|split].
  - apply error_message_body.
  - reflexivity.
  - rewrite error_message_body. vm_compute. discriminate.
Qed.

(** What the code puts in the body: for every AuthConfig and every
    call, the message read from the JSON body is the per-call
    error_description override when one is given and non-empty, and the
    generic default message otherwise; the configured
    oauth.error_description never reaches the body, so two
    configurations always produce the same body. *)
Lemma body_message_override_or_default
    (config config' : AuthConfig) (options : option Options) :
  error_message (body (getUnauthorizedResponse config options))
  = Some (match opt error_description options with
          | Some (String c d) => String c d
          | Some EmptyString | None => default_message
          end)
  /\ body (getUnauthorizedResponse config options)
     = body (getUnauthorizedResponse config' options).
Proof.
  split; [|reflexivity].
  rewrite error_message_body.
  destruct (opt error_description options) as [[|c d]|]; reflexivity.
Qed.

(** The amended C2 relies on this reading of the two guards. *)
Lemma validateRequest_configured (key : string) (o : option OAuthConfig)
    (req : IncomingMessage) :
  key <> "" ->
  validateRequest (mkAuthConfig (Some key) o) req
  = match req_headers req !! "x-api-key" with
    | Some (HString s) => String.eqb s key
    | _ => false
    end.
Proof.
  intros Hkey. unfold validateRequest. simpl.
  destruct key as [|k key]; [congruence|]. simpl.
  destruct (req_headers req !! "x-api-key") as [[[|c s]|l]|]; reflexivity.
Qed.

Lemma lowercaseHeaders_single (name value : string) :
  lowercaseHeaders [(name, value)] = {[ toLowerCase name := HString value ]}.
Proof. reflexivity. Qed.

(** C2, as stated for every configured key, fails at the empty key: the
    request without any header is accepted. *)
Lemma C2_empty_key_accepts_request_without_header :
  ~ (validateRequest (mkAuthConfig (Some "") None) no_headers = true
     <-> req_headers no_headers !! "x-api-key" = Some (HString "")).
Proof.
  intros [H _]. specialize (H eq_refl).
  unfold no_headers in H. simpl in H.
  rewrite lookup_empty in H. discriminate.
Qed.

(** C2 (amended): for every configured non-empty API key and every
    request, validateRequest returns true if and only if the headers
    hold, under the lowercase name x-api-key, a single string equal to
    the key (compared case-sensitively); an array value makes the
    request invalid whatever it contains; and a header sent under any
    spelling whose lowercase form is x-api-key is stored under that
    name, so the name matches case-insensitively. *)
Theorem C2_validateRequest_iff_single_exact_header
    (key : string) (o : option OAuthConfig) (req : IncomingMessage)
    (Hkey : key <> "") :
  (validateRequest (mkAuthConfig (Some key) o) req = true
   <-> req_headers req !! "x-api-key" = Some (HString key))
  /\ (forall l, req_headers req !! "x-api-key" = Some (HArray l) ->
        validateRequest (mkAuthConfig (Some key) o) req = false)
  /\ (forall name value, toLowerCase name = "x-api-key" ->
        (validateRequest (mkAuthConfig (Some key) o)
           (createMockRequest [(name, value)]) = true
         <-> value = key)).
Proof.
  split; [|split].
  - rewrite validateRequest_configured by assumption.
    destruct (req_headers req !! "x-api-key") as [[s|l]|]; split; intros H;
      try discriminate.
    + apply String.eqb_eq in H. congruence.
    + injection H as ->. apply String.eqb_refl.
  - intros l Hl. rewrite validateRequest_configured by assumption.
    now rewrite Hl.
  - intros name value Hname.
    rewrite validateRequest_configured by assumption.
    unfold createMockRequest. cbn [req_headers].
    rewrite lowercaseHeaders_single, Hname, lookup_singleton_eq.
    apply String.eqb_eq.
Qed.

Lemma C2_witness :
  "test-api-key-123" <> ""
  /\ validateRequest (mkAuthConfig (Some "test-api-key-123") None)
       (createMockRequest [("X-Api-Key", "test-api-key-123")]) = true.
Proof.
  split; [discriminate|].
  destruct (C2_validateRequest_iff_single_exact_header
              "test-api-key-123" None no_headers ltac:(discriminate))
    as (_ & _ & Hname).
  apply (Hname "X-Api-Key" "test-api-key-123"); reflexivity.
Defined.

(** C9: with the empty string as configured API key, validateRequest
    returns true for every request, with or without an x-api-key
    header: the empty key switches authentication off. *)
Theorem C9_empty_key_disables_authentication
    (o : option OAuthConfig) (req : IncomingMessage) :
  validateRequest (mkAuthConfig (Some "") o) req = true
  /\ validateRequest (mkAuthConfig (Some "") o) no_headers = true.
Proof. split; reflexivity. Qed.

(** The parameter list always ends up with the two defaults in it. *)
Lemma params_has_error (o : OAuthConfig) (options : option Options) :
  In (param "error"
        (or_default (JS.or (opt error options) (oauth_error o)) "invalid_token"))
     (params o options).
Proof. unfold params. rewrite !in_app_iff. right. right. left. now left. Qed.

Lemma params_has_error_description (o : OAuthConfig) (options : option Options) :
  In (param "error_description"
        (escape_quotes
           (or_default
              (JS.or (opt error_description options) (oauth_error_description o))
              default_message)))
     (params o options).
Proof.
  unfold params. rewrite !in_app_iff. right. right. right. left. now left.
Qed.

Lemma params_length (o : OAuthConfig) (options : option Options) :
  2 <= length (params o options).
Proof. unfold params. rewrite !length_app. simpl. lia. Qed.

(** The parameter list around its two unconditional entries, written
    out as the text the code builds. *)
Lemma params_split (o : OAuthConfig) (options : option Options) :
  exists pre post,
    params o options
    = (pre
       ++ [ ("error=" ++ dquote
             ++ or_default (JS.or (opt error options) (oauth_error o)) "invalid_token"
             ++ dquote)%string;
            ("error_description=" ++ dquote
             ++ escape_quotes
                  (or_default
                     (JS.or (opt error_description options)
                        (oauth_error_description o))
                     default_message)
             ++ dquote)%string ]
       ++ post)%list.
Proof.
  unfold params.
  eexists (_ ++ _)%list, (_ ++ _)%list.
  rewrite <- app_assoc. reflexivity.
Qed.

(** C10: whenever an OAuth descriptor is configured, even an empty one,
    the response carries a WWW-Authenticate header; the header is
    [Bearer] followed by the parameters joined with a comma and a space,
    and among the parameters there are always the text [error=] with
    the error code between double quotes and, right after it, the text
    [error_description=] with the description between double quotes,
    its own double quotes escaped (the code and the description are the
    defaults [invalid_token] and the generic message when neither the
    configuration nor the call supplies a value); the list is never
    empty, so the guard on its length always lets the header through. *)
Theorem C10_oauth_always_yields_challenge
    (config : AuthConfig) (o : OAuthConfig) (options : option Options)
    (Hoauth : oauth config = Some o) :
  exists header e d,
    headers (getUnauthorizedResponse config options) !! "WWW-Authenticate"
    = Some header
    /\ header = "Bearer " ++ join ", " (params o options)
    /\ (exists pre post,
          header
          = "Bearer "
            ++ join ", "
                 (pre
                  ++ [ ("error=" ++ dquote ++ e ++ dquote)%string;
                       ("error_description=" ++ dquote ++ escape_quotes d
                        ++ dquote)%string ]
                  ++ post)%list)
    /\ occurs_in ("error=" ++ dquote ++ e ++ dquote) header
    /\ occurs_in ("error_description=" ++ dquote ++ escape_quotes d ++ dquote) header
    /\ e = or_default (JS.or (opt error options) (oauth_error o)) "invalid_token"
    /\ d = or_default
             (JS.or (opt error_description options) (oauth_error_description o))
             default_message
    /\ e <> "" /\ d <> ""
    /\ (0 <? length (params o options))%nat = true.
Proof.
  assert (Hguard : (0 <? length (params o options))%nat = true).
  { apply Nat.ltb_lt. pose proof (params_length o options). lia. }
  destruct (params_split o options) as (pre & post & Hsplit).
  eexists _, _, _.
  split.
  { unfold getUnauthorizedResponse, response_headers. cbn [headers].
    rewrite Hoauth. cbv zeta. rewrite Hguard. apply lookup_insert_eq. }
  split; [reflexivity|].
  split.
  { exists pre, post. rewrite Hsplit. reflexivity. }
  split.
  { apply occurs_in_prefixed, occurs_in_join. rewrite Hsplit.
    apply in_or_app. right. now left. }
  split.
  { apply occurs_in_prefixed, occurs_in_join. rewrite Hsplit.
    apply in_or_app. right. right. now left. }
  split; [reflexivity|].
  split; [reflexivity|].
  split.
  { unfold JS.or.
    destruct (opt error options) as [[|c s]|]; simpl; try discriminate;
      destruct (oauth_error o) as [[|c' s']|]; simpl; discriminate. }
  split; [|exact Hguard].
  unfold JS.or.
  destruct (opt error_description options) as [[|c s]|]; simpl; try discriminate;
    destruct (oauth_error_description o) as [[|c' s']|]; simpl; discriminate.
Qed.

Lemma C10_witness :
  exists header,
    headers (getUnauthorizedResponse (mkAuthConfig (Some "test") (Some oauth_empty))
               None) !! "WWW-Authenticate" = Some header
    /\ header = "Bearer error=" ++ dquote ++ "invalid_token" ++ dquote
                 ++ ", error_description=" ++ dquote
                 ++ "Unauthorized: Invalid or missing API key" ++ dquote.
Proof.
  destruct (C10_oauth_always_yields_challenge
              (mkAuthConfig (Some "test") (Some oauth_empty)) oauth_empty None
              eq_refl) as (header & e & d & Hh & Heq & _).
  exists header. split; [exact Hh|]. rewrite Heq. reflexivity.
Defined.

(** *** The cases of authentication.test.ts, evaluated on the model *)

Example test_allow_all_requests_without_auth :
  validateRequest (mkAuthConfig None None) (createMockRequest []) = true
  /\ validateRequest (mkAuthConfig None None)
       (createMockRequest [("x-api-key", "some-key")]) = true.
Proof. split; reflexivity. Qed.

Example test_api_key_validation :
  let config := mkAuthConfig (Some "test-api-key-123") None in
  validateRequest config (createMockRequest [("x-api-key", "test-api-key-123")]) = true
  /\ validateRequest config (createMockRequest []) = false
  /\ validateRequest config (createMockRequest [("x-api-key", "wrong-key")]) = false
  /\ validateRequest config (createMockRequest [("x-api-key", "")]) = false
  /\ validateRequest config (createMockRequest [("X-API-KEY", "test-api-key-123")]) = true
  /\ validateRequest config (createMockRequest [("X-Api-Key", "test-api-key-123")]) = true
  /\ validateRequest config
       (mkRequest None None
          {[ "x-api-key" := HArray ["test-api-key-123"; "another-key"] ]}) = false.
Proof. repeat split; vm_compute; reflexivity. Qed.

Example test_proper_unauthorized_response :
  let response := getUnauthorizedResponse (mkAuthConfig (Some "test") None) None in
  headers response !! "Content-Type" = Some "application/json"
  /\ headers response !! "WWW-Authenticate" = None
  /\ error_message (body response) = Some "Unauthorized: Invalid or missing API key"
  /\ body response
     = "{" ++ q "error" ++ ":{" ++ q "code" ++ ":401," ++ q "message" ++ ":"
           ++ q "Unauthorized: Invalid or missing API key" ++ "},"
           ++ q "id" ++ ":null," ++ q "jsonrpc" ++ ":" ++ q "2.0" ++ "}"
  /\ body (getUnauthorizedResponse (mkAuthConfig None None) None) = body response.
Proof. repeat split; vm_compute; reflexivity. Qed.

Example test_challenge_with_resource :
  challenge (with_resource "https://example.com") None
  = Some ("Bearer resource_metadata="
            ++ q "https://example.com/.well-known/oauth-protected-resource"
            ++ ", error=" ++ q "invalid_token"
            ++ ", error_description=" ++ q "Unauthorized: Invalid or missing API key")
  /\ challenge (with_resource "https://example.com/") None
     = Some ("Bearer resource_metadata="
               ++ q "https://example.com//.well-known/oauth-protected-resource"
               ++ ", error=" ++ q "invalid_token"
               ++ ", error_description=" ++ q "Unauthorized: Invalid or missing API key").
Proof. split; vm_compute; reflexivity. Qed.

Example test_minimal_challenge :
  challenge (mkAuthConfig (Some "test") (Some oauth_empty)) None
  = Some ("Bearer error=" ++ q "invalid_token"
            ++ ", error_description=" ++ q "Unauthorized: Invalid or missing API key")
  /\ challenge
       (mkAuthConfig (Some "test")
          (Some (mkOAuthConfig None None None (Some (mkProtectedResource None))
                   None None))) None
     = challenge (mkAuthConfig (Some "test") (Some oauth_empty)) None.
Proof. split; vm_compute; reflexivity. Qed.

Example test_override_and_escaping :
  challenge config_with_description
    (Some (mkOptions (Some "invalid_token") (Some "Options error description")
             None None))
  = Some ("Bearer resource_metadata="
            ++ q "https://example.com/.well-known/oauth-protected-resource"
            ++ ", error=" ++ q "invalid_token"
            ++ ", error_description=" ++ q "Options error description")
  /\ challenge (with_resource "https://example.com")
       (Some (mkOptions None (Some ("Token " ++ q "abc123" ++ " is invalid"))
                None None))
     = Some ("Bearer resource_metadata="
               ++ q "https://example.com/.well-known/oauth-protected-resource"
               ++ ", error=" ++ q "invalid_token"
               ++ ", error_description="
               ++ q ("Token " ++ backslash ++ dquote ++ "abc123"
                       ++ backslash ++ dquote ++ " is invalid")).
Proof. split; vm_compute; reflexivity. Qed.

Example test_all_parameters_in_order :
  challenge
    (mkAuthConfig (Some "test")
       (Some (mkOAuthConfig (Some "invalid_token") (Some "Token expired")
                (Some "https://example.com/errors")
                (Some (mkProtectedResource (Some "https://example.com")))
                (Some "my-realm") (Some "read write"))))
    None
  = Some ("Bearer realm=" ++ q "my-realm"
            ++ ", resource_metadata="
            ++ q "https://example.com/.well-known/oauth-protected-resource"
            ++ ", error=" ++ q "invalid_token"
            ++ ", error_description=" ++ q "Token expired"
            ++ ", error_uri=" ++ q "https://example.com/errors"
            ++ ", scope=" ++ q "read write").
Proof. vm_compute. reflexivity. Qed.

End AuthenticationSpec.

(** ** src/MCPProxy.ts: tapTransport *)

Module TapTransportSpec.

Import TapTransport.

Section Generic.

Context {W : Type}.
Implicit Types (heap : Heap W) (obj : Transport W) (f : Fn W)
               (h : EventHandler W) (t : loc) (w : W).

Lemma tapped_bound_fresh k h f t : Tapped k h (Some (Bound f t)) <> f.
Proof.
  intros Heq. apply (f_equal Fn_size) in Heq. simpl in Heq. lia.
Qed.

Lemma instrument_changes t h obj : instrument t h obj <> obj.
Proof.
  intros Heq. apply (f_equal close) in Heq. simpl in Heq.
  exact (tapped_bound_fresh _ _ _ _ Heq).
Qed.

Lemma tapTransport_lookup heap t h obj :
  heap !! t = Some obj ->
  (tapTransport heap t h).1 !! t = Some (instrument t h obj).
Proof.
  intros Hobj. unfold tapTransport. cbn [fst].
  rewrite lookup_alter_eq, Hobj. reflexivity.
Qed.

Lemma tapTransport_frame heap t h t' :
  t' <> t -> (tapTransport heap t h).1 !! t' = heap !! t'.
Proof.
  intros Hne. unfold tapTransport. cbn [fst].
  now rewrite lookup_alter_ne by congruence.
Qed.

(** One use of the tapped object: the event is published, then the
    original is used with the same payload. *)
Lemma perform_instrumented t h obj (op : Op) w :
  perform (instrument t h obj) t op w = published_then h (perform obj t) op w.
Proof.
  unfold published_then.
  destruct op; simpl; destruct (h _ w) as [[|e] w']; try reflexivity.
  - destruct (onclose obj); reflexivity.
  - destruct (onerror obj); reflexivity.
  - destruct (onmessage obj); reflexivity.
Qed.

Lemma run_ext (step step' : Op -> W -> Outcome * W) (ops : list Op) w :
  (forall op w, step op w = step' op w) -> run step ops w = run step' ops w.
Proof.
  intros Hext. revert w. induction ops as [|op ops IH]; intros w; [reflexivity|].
  cbn [run]. rewrite Hext. destruct (step' op w) as [r w1].
  now rewrite IH.
Qed.

(** C4 (amended): for every transport t, tapTransport assigns, in
    place, instrumented closures to the six properties of t (close,
    onclose, onerror, onmessage, send, start), each closed over the
    event handler and over the previous value of the property bound
    to t, and returns t itself; the object at t is therefore changed,
    and no other object is. *)
Theorem C4_tapTransport_overwrites_in_place heap t h obj
    (Hobj : heap !! t = Some obj) :
  (tapTransport heap t h).2 = t
  /\ (exists obj',
        (tapTransport heap t h).1 !! t = Some obj'
        /\ obj' <> obj
        /\ close obj' = Tapped KClose h (Some (Bound (close obj) t))
        /\ onclose obj' = Some (Tapped KOnClose h (bind_opt (onclose obj) t))
        /\ onerror obj' = Some (Tapped KOnError h (bind_opt (onerror obj) t))
        /\ onmessage obj' = Some (Tapped KOnMessage h (bind_opt (onmessage obj) t))
        /\ send obj' = Tapped KSend h (Some (Bound (send obj) t))
        /\ start obj' = Tapped KStart h (Some (Bound (start obj) t)))
  /\ (forall t', t' <> t -> (tapTransport heap t h).1 !! t' = heap !! t').
Proof.
  split; [reflexivity|]. split.
  - exists (instrument t h obj).
    split; [now apply tapTransport_lookup|].
    split; [apply instrument_changes|].
    repeat split.
  - intros t' Hne. now apply tapTransport_frame.
Qed.

(** C5 (amended): for every transport t and every event handler h, each
    use of the transport produced by tapTransport(t, h) - a send, start
    or close call, or an inbound onmessage, onerror or onclose
    notification - first publishes the matching event to h. When h
    returns normally, the use is then delegated to the operation t had
    when it was tapped, with the identical payload, once, and the
    delegate's result is returned unchanged; a sequence of uses is
    delegated use by use, in order. When h throws, the operation of t is
    not reached and the use is rejected with h's error. *)
Theorem C5_tapped_use_delegates heap t h obj
    (Hobj : heap !! t = Some obj) :
  exists obj',
    (tapTransport heap t h).1 !! (tapTransport heap t h).2 = Some obj'
    /\ (forall (op : Op) w w',
          h (event_of_op op) w = (Returns, w') ->
          perform obj' (tapTransport heap t h).2 op w = perform obj t op w')
    /\ (forall (op : Op) w w' e,
          h (event_of_op op) w = (Throws e, w') ->
          perform obj' (tapTransport heap t h).2 op w = (Rejected e, w'))
    /\ (forall (ops : list Op) w,
          perform_all obj' (tapTransport heap t h).2 ops w
          = run (published_then h (perform obj t)) ops w).
Proof.
  exists (instrument t h obj). cbn [tapTransport snd].
  split; [now apply tapTransport_lookup|].
  split; [|split].
  - intros op w w' Hh. rewrite perform_instrumented.
    unfold published_then. now rewrite Hh.
  - intros op w w' e Hh. rewrite perform_instrumented.
    unfold published_then. now rewrite Hh.
  - intros ops w. unfold perform_all.
    apply run_ext. intros op w0. apply perform_instrumented.
Qed.

End Generic.

Section SideChannel.

Context {U S : Type}.
Variable record : TransportEvent -> S -> S.


End SideChannel.

(** C4, as stated, fails: the reference returned is the one passed in,
    and the object it designates no longer has its own send. *)
Lemma C4_tapTransport_returns_same_mutated_object :
  (tapTransport heap0 0 quiet).2 = 0
  /\ send <$> (tapTransport heap0 0 quiet).1 !! 0
     = Some (Tapped KSend quiet (Some (Bound native_send 0)))
  /\ ~ ((tapTransport heap0 0 quiet).1 !! 0 = Some plain_transport
        /\ (tapTransport heap0 0 quiet).2 <> 0).
Proof.
  split; [reflexivity|]. split.
  - rewrite (tapTransport_lookup heap0 0 quiet plain_transport eq_refl).
    reflexivity.
  - intros [_ Hne]. apply Hne. reflexivity.
Qed.

Lemma C4_witness :
  (tapTransport heap0 0 quiet).2 = 0
  /\ (tapTransport heap0 0 quiet).1 !! 0 <> Some plain_transport.
Proof.
  destruct (C4_tapTransport_overwrites_in_place heap0 0 quiet plain_transport
              eq_refl) as (Hret & (obj' & Hlook & Hne & _) & _).
  split; [exact Hret|].
  rewrite Hlook. intros Heq. apply Hne. congruence.
Defined.

(** C5, as stated for every handler, fails: when the handler throws,
    the message never reaches the transport and the call is rejected. *)
Lemma C5_throwing_handler_swallows_send :
  perform plain_transport 0 (OpSend ping) [] = (Fulfilled VUndefined, [ping])
  /\ perform (instrument 0 failing plain_transport) 0 (OpSend ping) []
     = (Rejected (VError "handler failed"), [])
  /\ (tapTransport heap0 0 failing).1 !! 0
     = Some (instrument 0 failing plain_transport)
  /\ perform (instrument 0 failing plain_transport) 0 (OpSend ping) []
     <> perform plain_transport 0 (OpSend ping) [].
Proof.
  split; [reflexivity|]. split; [reflexivity|]. split.
  - now apply tapTransport_lookup.
  - discriminate.
Qed.

Lemma C5_witness :
  exists obj',
    (tapTransport heap0 0 quiet).1 !! 0 = Some obj'
    /\ perform obj' 0 (OpSend ping) [] = (Fulfilled VUndefined, [ping]).
Proof.
  destruct (C5_tapped_use_delegates heap0 0 quiet plain_transport eq_refl)
    as (obj' & Hlook & Hreturns & _).
  exists obj'. split; [exact Hlook|].
  exact (Hreturns (OpSend ping) [] [] eq_refl).
Defined.

End TapTransportSpec.

(** ** src/MCPProxy.ts: proxyServer *)

Module ProxyServerSpec.

Import ProxyServer.

(** What the code's guard [serverCapabilities?.group] tests: the
    snapshot was given and holds an entry for the group. *)
Lemma has_present (g : Group) (caps : option ServerCapabilities) :
  has (group_capability g) caps = true
  <-> exists c cap, caps = Some c /\ group_capability g c = Some cap.
Proof.
  unfold has. destruct caps as [c|].
  - destruct (group_capability g c) as [cap|] eqn:Hcap.
    + split; [eauto|reflexivity].
    + split; [discriminate|]. intros (c' & cap & [= <-] & Hc). congruence.
  - split; [discriminate|]. intros (c & cap & Hc & _). discriminate.
Qed.

Lemma proxyServer_gated (srv : Server) (client : nat)
    (caps : option ServerCapabilities) (g : Group) (schema : Schema)
    (m : ClientMethod) (p : Passed) :
  In (schema, m, p) (group_wiring g) ->
  handlers_of (proxyServer srv client caps) schema
  = if has (group_capability g) caps
    then Some (mkHandler client m p)
    else handlers_of srv schema.
Proof.
  intros Hin.
  destruct g; simpl in Hin;
    repeat (destruct Hin as [[= <- <- <-]|Hin]); try destruct Hin;
    unfold proxyServer, has;
    destruct caps as [[[cl|] [cp|] [cr|] [ct|]]|];
    cbn -[lookup insert]; simplify_map_eq; reflexivity.
Qed.

(** C6: for every capability snapshot, proxyServer always registers the
    handler of the completion request, and, for each of the groups
    logging, prompts, resources and tools, sets the handler of every
    schema of the group - a handler that calls the matching method of
    the upstream client - if the capability is present in the snapshot,
    and leaves that schema's entry as it was if the snapshot is missing
    or has no entry for the group; on a new server, a schema of a gated
    group therefore has a handler if and only if the snapshot was given
    and holds the capability. *)
Theorem C6_proxyServer_wiring
    (server : Server) (client : nat) (caps : option ServerCapabilities) :
  requestHandlers (proxyServer server client caps) !! CompleteRequestSchema
  = Some (mkHandler client complete ArgsParams)
  /\ (forall g schema m p, In (schema, m, p) (group_wiring g) ->
        (forall c cap, caps = Some c -> group_capability g c = Some cap ->
           handlers_of (proxyServer server client caps) schema
           = Some (mkHandler client m p))
        /\ (forall c, caps = Some c -> group_capability g c = None ->
              handlers_of (proxyServer server client caps) schema
              = handlers_of server schema)
        /\ (caps = None ->
              handlers_of (proxyServer server client caps) schema
              = handlers_of server schema))
  /\ (forall g schema m p, In (schema, m, p) (group_wiring g) ->
        (is_Some (handlers_of (proxyServer newServer client caps) schema)
         <-> exists c cap, caps = Some c /\ group_capability g c = Some cap)).
Proof.
  split; [|split].
  - unfold proxyServer, setRequestHandler. cbn [requestHandlers].
    apply lookup_insert_eq.
  - intros g schema m p Hin.
    rewrite (proxyServer_gated server client caps g schema m p Hin).
    split; [|split].
    + intros c cap -> Hcap. unfold has. now rewrite Hcap.
    + intros c -> Hcap. unfold has. now rewrite Hcap.
    + intros ->. reflexivity.
  - intros g schema m p Hin. rewrite <- has_present.
    rewrite (proxyServer_gated newServer client caps g schema m p Hin).
    destruct (has (group_capability g) caps).
    + split; [reflexivity | eauto].
    + split; [|discriminate].
      intros [x Hx]. destruct schema; simpl in Hx;
        rewrite lookup_empty in Hx; discriminate.
Qed.

End ProxyServerSpec.

(** ** src/MCPProxy.ts: startSSEServer *)

Module StartSSEServerSpec.

Import JS Authentication StartSSEServer.

(** *** The CORS block *)

Section Cors.

Variable URL_origin : string -> option string.
Variable sessionId_param : string -> option string.
Variable endpoint : string.

Local Abbreviation handle := (handle URL_origin sessionId_param endpoint).
Local Abbreviation cors := (cors URL_origin).

Lemma handle_set_headers (st : State) (req : IncomingMessage) :
  set_headers (handle st req) = (cors req).1
  /\ console_errors (handle st req) = (cors req).2
  /\ reply (handle st req) = route sessionId_param endpoint st req.
Proof.
  unfold StartSSEServer.handle. destruct (cors req) as [hs errs]. repeat split.
Qed.

Lemma cors_parsed (req : IncomingMessage) (o : string) :
  header_truthy (req_headers req !! "origin") = true ->
  URL_origin (header_to_string (req_headers req !! "origin")) = Some o ->
  cors req
  = (setHeader "Access-Control-Allow-Headers" "*"
       (setHeader "Access-Control-Allow-Methods" "GET, POST, OPTIONS"
          (setHeader "Access-Control-Allow-Credentials" "true"
             (setHeader "Access-Control-Allow-Origin" o ∅))),
     []).
Proof. intros Ht Hp. unfold StartSSEServer.cors. now rewrite Ht, Hp. Qed.

(** With no Origin, an empty one, or one the URL parser rejects, the
    listener sets no header at all. *)
Lemma cors_absent (st : State) (req : IncomingMessage) :
  header_truthy (req_headers req !! "origin") = false
  \/ URL_origin (header_to_string (req_headers req !! "origin")) = None ->
  set_headers (handle st req) = ∅.
Proof.
  intros H. destruct (handle_set_headers st req) as (-> & _).
  unfold StartSSEServer.cors.
  destruct (header_truthy (req_headers req !! "origin")); [|reflexivity].
  destruct H as [H|H]; [discriminate|]. now rewrite H.
Qed.

(** The table the CORS block builds for an origin [o]. *)
Lemma cors_table (o : string) :
  let hs := setHeader "Access-Control-Allow-Headers" "*"
              (setHeader "Access-Control-Allow-Methods" "GET, POST, OPTIONS"
                 (setHeader "Access-Control-Allow-Credentials" "true"
                    (setHeader "Access-Control-Allow-Origin" o ∅))) in
  getHeader "Access-Control-Allow-Origin" hs = Some o
  /\ getHeader "Access-Control-Allow-Credentials" hs = Some "true"
  /\ getHeader "Access-Control-Allow-Methods" hs = Some "GET, POST, OPTIONS"
  /\ getHeader "Access-Control-Allow-Headers" hs = Some "*".
Proof. repeat split; vm_compute; reflexivity. Qed.

(** C3 (amended): for every incoming request, whatever its method and
    path and so whatever the response turns out to be, the listener runs
    the CORS block before it routes the request. When the Origin header
    is non-empty and the URL parser accepts it, the block sets the
    allow-origin header to the origin of the parsed URL - the header's
    exact value when that value is already a serialised origin, and
    never the wildcard -, allows credentials, and sets the methods
    header to GET, POST, OPTIONS and the headers header to the wildcard.
    When the Origin header is empty or the URL parser rejects it, the
    block sets no header, and the request is routed all the same. *)
Theorem C3_cors_headers_on_every_reply
    (st : State) (req : IncomingMessage)
    (Hserialised : forall s o, URL_origin s = Some o -> o <> "*") :
  let hs := set_headers (handle st req) in
  (forall v o,
      req_headers req !! "origin" = Some v ->
      header_truthy (Some v) = true ->
      URL_origin (header_to_string (Some v)) = Some o ->
      getHeader "Access-Control-Allow-Origin" hs = Some o
      /\ getHeader "Access-Control-Allow-Origin" hs <> Some "*"
      /\ (forall s, v = HString s -> URL_origin s = Some s ->
            getHeader "Access-Control-Allow-Origin" hs = Some s)
      /\ getHeader "Access-Control-Allow-Credentials" hs = Some "true"
      /\ getHeader "Access-Control-Allow-Methods" hs = Some "GET, POST, OPTIONS"
      /\ getHeader "Access-Control-Allow-Headers" hs = Some "*")
  /\ (header_truthy (req_headers req !! "origin") = false
        \/ URL_origin (header_to_string (req_headers req !! "origin")) = None ->
      hs = ∅)
  /\ reply (handle st req) = route sessionId_param endpoint st req.
Proof.
  intros hs. subst hs.
  split; [|split; [apply cors_absent | apply handle_set_headers]].
  intros v o Hcarries Hnonempty Hparsed.
  destruct (handle_set_headers st req) as (-> & _ & _).
  rewrite (cors_parsed req o) by (rewrite Hcarries; assumption).
  cbn [fst].
  destruct (cors_table o) as (Horigin & Hcred & Hmeth & Hhead).
  rewrite Horigin.
  split; [reflexivity|].
  split; [intros [= ->]; now apply (Hserialised _ _ Hparsed)|].
  split; [intros s -> Hs; simpl in Hparsed; congruence|].
  auto.
Qed.

End Cors.

(** *** The URL fragment *)

Lemma origin_of_authority_not_wildcard (scheme rest o : string) :
  scheme <> "" -> origin_of_authority scheme rest = Some o ->
  String.length o <> 1.
Proof.
  intros Hs. unfold origin_of_authority.
  assert (Hlen : forall h, String.length (scheme ++ "://" ++ h) <> 1).
  { intros h. destruct scheme as [|c [|c' s]]; [congruence| |]; simpl; lia. }
  destruct (take_while host_char rest); [discriminate|].
  destruct (drop_while host_char rest) as [|c r].
  - intros [= <-]. apply Hlen.
  - destruct (path_start c); [|discriminate]. intros [= <-]. apply Hlen.
Qed.

Lemma URL_origin_fragment_not_wildcard (s o : string) :
  URL_origin_fragment s = Some o -> o <> "*".
Proof.
  unfold URL_origin_fragment.
  destruct (strip_prefix "https://" _); [|destruct (strip_prefix "http://" _)];
    try discriminate;
    intros H%origin_of_authority_not_wildcard; try discriminate;
    intros ->; apply H; reflexivity.
Qed.

(** C3, as stated, fails. An Origin that is not a URL ([null], which
    browsers send for opaque origins) gets no CORS header; an Origin in
    another spelling is answered with its normal form, not with the
    exact value; and an empty Origin gets no header whatever the URL
    parser does. *)
Lemma C3_origin_not_echoed :
  getHeader "Access-Control-Allow-Origin"
    (set_headers (handle URL_origin_fragment (fun _ => None) "/sse" idle
                    (request_with_origin "GET" "/sse" "null"))) = None
  /\ getHeader "Access-Control-Allow-Origin"
       (set_headers (handle URL_origin_fragment (fun _ => None) "/sse" idle
                       (request_with_origin "GET" "/sse" "https://A.example")))
     = Some "https://a.example"
  /\ ~ (exists URL_origin,
          forall req o, req_headers req !! "origin" = Some (HString o) ->
            getHeader "Access-Control-Allow-Origin"
              (set_headers (handle URL_origin (fun _ => None) "/sse" idle req))
            = Some o).
Proof.
  split; [|split].
  - vm_compute. reflexivity.
  - vm_compute. reflexivity.
  - intros [URL_origin H].
    specialize (H (request_with_origin "GET" "/sse" "") "").
    rewrite cors_absent in H.
    + specialize (H ltac:(apply lookup_singleton_eq)).
      unfold getHeader in H. rewrite lookup_empty in H. discriminate.
    + left. unfold request_with_origin. cbn [req_headers].
      rewrite lookup_singleton_eq. reflexivity.
Qed.

Lemma C3_witness :
  getHeader "Access-Control-Allow-Origin"
    (set_headers (handle URL_origin_fragment (fun _ => None) "/sse" idle
                    (request_with_origin "DELETE" "/nowhere" "https://a.example")))
  = Some "https://a.example"
  /\ reply (handle URL_origin_fragment (fun _ => None) "/sse" idle
              (request_with_origin "DELETE" "/nowhere" "https://a.example"))
     = Head 404 None.
Proof.
  destruct (C3_cors_headers_on_every_reply
              URL_origin_fragment (fun _ => None) "/sse" idle
              (request_with_origin "DELETE" "/nowhere" "https://a.example")
              URL_origin_fragment_not_wildcard)
    as (Hset & _ & Hreply).
  destruct (Hset (HString "https://a.example") "https://a.example"
              ltac:(apply lookup_singleton_eq) eq_refl eq_refl)
    as (Horigin & _).
  split; [exact Horigin|]. rewrite Hreply. reflexivity.
Defined.

End StartSSEServerSpec.

(** ** src/MCPProxy.ts: session teardown *)

Module SessionTeardownSpec.

Import StartSSEServer.

Lemma effects_await_server_close (s : Session) (result : Settled) (st : State) :
  effects (await_server_close s result st)
  = (effects st ++ close_effects s result)%list
  /\ activeTransports (await_server_close s result st) = activeTransports st.
Proof.
  unfold await_server_close, close_effects.
  destruct result; simpl; split; try reflexivity.
  now rewrite <- app_assoc.
Qed.

Lemma before_onClose_facts (s : Session) (result : Settled) (st : State) :
  activeTransports (before_onClose s result st) !! sessionId s = None
  /\ effects (before_onClose s result st)
     = (effects st ++ close_effects s result)%list.
Proof.
  unfold before_onClose, delete_transport. cbn [activeTransports effects].
  split; [apply lookup_delete_eq|].
  apply effects_await_server_close.
Qed.

Lemma appended_app (st st' : State) (l : list Effect) :
  effects st' = (effects st ++ l)%list -> appended st st' = l.
Proof. intros H. unfold appended. rewrite H. apply drop_app_length. Qed.

Lemma OnCloseCalled_not_in_close_effects (s : Session) (result : Settled) (n : nat) :
  ~ In (OnCloseCalled n) (close_effects s result).
Proof.
  unfold close_effects. destruct result; simpl; intros H;
    repeat (destruct H as [H|H]; try discriminate); exact H.
Qed.

(** The listener runs its three statements in the order of the source. *)
Lemma close_listener_unfold (onClose : bool) (s : Session) (result : Settled)
    (st : State) :
  close_listener onClose s result st
  = call_onClose onClose s (delete_transport s (await_server_close s result st)).
Proof. reflexivity. Qed.

Lemma states_through_close_listener (onClose : bool) (s : Session)
    (result : Settled) (st : State) :
  states_through (close_listener_statements onClose s result) st
  = [ await_server_close s result st;
      before_onClose s result st;
      close_listener onClose s result st ].
Proof. reflexivity. Qed.

(** Opening a session registers the close listener once the three
    awaits of the set-up have resolved. *)
Lemma open_session_registers (onConnect : bool) (res : nat) (sid : string)
    (srv : nat) (st : State) :
  closeListeners
    (open_session onConnect res sid (mkSetUp (Some srv) Resolved Resolved) st)
  !! res = Some (mkSession sid srv)
  /\ activeTransports
       (open_session onConnect res sid (mkSetUp (Some srv) Resolved Resolved) st)
     !! sid = Some res.
Proof.
  unfold open_session. cbn [created connected sent].
  destruct onConnect; cbn [closeListeners activeTransports emit]; split;
    apply lookup_insert_eq.
Qed.

(** C7 (amended): for every session of the legacy streaming family
    whose close listener is registered, when the session's response
    stream closes and an onClose callback was supplied, the callback is
    invoked exactly once, after the session has been removed from the
    registry and after the call that closes the session's downstream
    endpoint has settled - resolved, or rejected, in which case the
    error is logged and teardown goes on. The order is read off the
    states the listener goes through, one per statement: in every state
    in which the callback has been called, the session is out of the
    registry and the closing call has settled, and the state reached
    before the last statement has the session removed and no call of the
    callback yet. *)
Theorem C7_onClose_once_after_teardown
    (st : State) (res : nat) (s : Session) (result : Settled)
    (Hregistered : closeListeners st !! res = Some s) :
  let st' := res_close true res result st in
  let through := states_through (close_listener_statements true s result) st in
  st' = call_onClose true s (before_onClose s result st)
  /\ activeTransports (before_onClose s result st) !! sessionId s = None
  /\ appended st (before_onClose s result st) = close_effects s result
  /\ In (ServerCloseSettled (server s) result)
        (appended st (before_onClose s result st))
  /\ ~ In (OnCloseCalled (server s)) (appended st (before_onClose s result st))
  /\ appended st st'
     = (appended st (before_onClose s result st) ++ [OnCloseCalled (server s)])%list
  /\ count_occ Effect_eq_dec (appended st st') (OnCloseCalled (server s)) = 1
  /\ activeTransports st' !! sessionId s = None
  /\ List.last through st = st'
  /\ (forall mid, In mid through ->
        In (OnCloseCalled (server s)) (appended st mid) ->
        activeTransports mid !! sessionId s = None
        /\ In (ServerCloseSettled (server s) result) (appended st mid))
  /\ (exists first_state removed,
        through = [first_state; removed; st']
        /\ activeTransports removed !! sessionId s = None
        /\ In (ServerCloseSettled (server s) result) (appended st removed)
        /\ ~ In (OnCloseCalled (server s)) (appended st first_state)
        /\ ~ In (OnCloseCalled (server s)) (appended st removed)
        /\ effects st' = (effects removed ++ [OnCloseCalled (server s)])%list).
Proof.
  intros st' through. subst st' through.
  destruct (before_onClose_facts s result st) as [Hreg Heff].
  pose proof (appended_app st _ _ Heff) as Hbefore.
  pose proof (appended_app st _ _ (proj1 (effects_await_server_close s result st)))
    as Hfirst.
  assert (Hclose : res_close true res result st
                   = emit (OnCloseCalled (server s)) (before_onClose s result st)).
  { unfold res_close. rewrite Hregistered. reflexivity. }
  assert (Hafter : appended st (res_close true res result st)
                   = (close_effects s result ++ [OnCloseCalled (server s)])%list).
  { apply appended_app. rewrite Hclose. unfold emit. cbn [effects].
    rewrite Heff. now rewrite <- app_assoc. }
  assert (Hfinal : activeTransports (res_close true res result st)
                   !! sessionId s = None).
  { rewrite Hclose. unfold emit. cbn [activeTransports]. exact Hreg. }
  assert (Hsettled : In (ServerCloseSettled (server s) result)
                        (close_effects s result)) by now left.
  split; [exact Hclose|].
  split; [exact Hreg|].
  rewrite states_through_close_listener.
  rewrite Hbefore, Hafter.
  split; [reflexivity|].
  split; [exact Hsettled|].
  split; [apply OnCloseCalled_not_in_close_effects|].
  split; [reflexivity|].
  split.
  { rewrite count_occ_app.
    rewrite (proj1 (count_occ_not_In Effect_eq_dec _ _)
               (OnCloseCalled_not_in_close_effects s result (server s))).
    cbn [count_occ Nat.add].
    destruct (Effect_eq_dec _ _); [reflexivity|congruence]. }
  split; [exact Hfinal|].
  split.
  { cbn [List.last]. unfold res_close. now rewrite Hregistered. }
  split.
  { intros mid [<-|[<-|[<-|[]]]].
    - rewrite Hfirst. intros Hin.
      now apply OnCloseCalled_not_in_close_effects in Hin.
    - rewrite Hbefore. intros Hin.
      now apply OnCloseCalled_not_in_close_effects in Hin.
    - intros _. replace (close_listener true s result st)
        with (res_close true res result st)
        by (unfold res_close; now rewrite Hregistered).
      split; [exact Hfinal|]. rewrite Hafter. apply in_or_app. now left. }
  exists (await_server_close s result st), (before_onClose s result st).
  split; [f_equal; f_equal; f_equal; unfold res_close; now rewrite Hregistered|].
  split; [exact Hreg|].
  rewrite Hbefore, Hfirst.
  split; [exact Hsettled|].
  split; [apply OnCloseCalled_not_in_close_effects|].
  split; [apply OnCloseCalled_not_in_close_effects|].
  rewrite Hclose. reflexivity.
Qed.

(** C7, as stated, fails: when [server.close()] rejects, the endpoint
    has not been closed, and [onClose] is called all the same. *)
Lemma C7_onClose_called_though_close_failed :
  effects (res_close true 1 (RejectedWith "socket error") one_session)
  = [ OnConnectCalled 7;
      ServerCloseSettled 7 (RejectedWith "socket error");
      ConsoleError "Error closing server:";
      OnCloseCalled 7 ]
  /\ ~ In (ServerCloseSettled 7 Resolved)
          (effects (res_close true 1 (RejectedWith "socket error") one_session)).
Proof.
  split; [vm_compute; reflexivity|].
  vm_compute. intros H.
  repeat (destruct H as [H|H]; try discriminate). exact H.
Qed.

Lemma C7_witness :
  appended one_session (res_close true 1 Resolved one_session)
  = [ServerCloseSettled 7 Resolved; OnCloseCalled 7]
  /\ activeTransports (res_close true 1 Resolved one_session) !! "abc" = None.
Proof.
  destruct (C7_onClose_once_after_teardown one_session 1 (mkSession "abc" 7)
              Resolved ltac:(vm_compute; reflexivity))
    as (_ & _ & _ & _ & _ & Happ & _ & Hreg & _).
  split; [|exact Hreg].
  rewrite Happ. vm_compute. reflexivity.
Defined.

End SessionTeardownSpec.

(** ** The event log *)

Module EventLogSpec.

Import EventLog.

Lemma stored_append (sid sid' : string) (message : Message) (log : Log) :
  stored sid' (append sid message log).1
  = if decide (sid = sid')
    then (stored sid log ++ [mkEvent sid (S (length (stored sid log))) message])%list
    else stored sid' log.
Proof.
  unfold append, stored. cbn [fst].
  rewrite lookup_insert. destruct (decide (sid = sid')); reflexivity.
Qed.

(** The ordering invariant of the data model: in every stream the
    event ids are 1, 2, 3, ... in append order, without gaps. *)
Lemma reachable_ids (log : Log) (sid : string) :
  reachable log ->
  map eventId (stored sid log) = seq 1 (length (stored sid log)).
Proof.
  intros Hreach. revert sid.
  induction Hreach as [|sid0 message log Hreach IH]; intros sid.
  - unfold stored, empty. now rewrite lookup_empty.
  - rewrite stored_append. destruct (decide (sid0 = sid)) as [->|Hne]; [|apply IH].
    rewrite map_app, length_app, seq_app, IH. cbn [map length eventId seq].
    reflexivity.
Qed.

Lemma reachable_streamId (log : Log) (sid : string) (e : StreamEvent) :
  reachable log -> In e (stored sid log) -> streamId e = sid.
Proof.
  intros Hreach. revert sid e.
  induction Hreach as [|sid0 message log Hreach IH]; intros sid e.
  - unfold stored, empty. rewrite lookup_empty. intros [].
  - rewrite stored_append. destruct (decide (sid0 = sid)) as [->|Hne]; [|apply IH].
    rewrite in_app_iff. intros [Hin|[<-|[]]]; [now apply IH | reflexivity].
Qed.

(** On a list numbered from [k], keeping the ids above [a] is dropping
    a prefix. *)
Lemma filter_numbered (l : list StreamEvent) (k a : nat) :
  map eventId l = seq k (length l) ->
  List.filter (fun e => (a <? eventId e)%nat) l = drop (a + 1 - k) l.
Proof.
  revert k. induction l as [|e l IH]; intros k Hids.
  - now rewrite drop_nil.
  - cbn [map length seq] in Hids. injection Hids as Hk Hrest.
    cbn [List.filter]. rewrite (IH (S k) Hrest), Hk.
    destruct (Nat.ltb_spec a k) as [Hlt|Hge].
    + replace (a + 1 - k) with 0 by lia.
      replace (a + 1 - S k) with 0 by lia. reflexivity.
    + replace (a + 1 - k) with (S (a + 1 - S k)) by lia. reflexivity.
  Qed.

Lemma deliveries_drop (log : Log) (sid : string) (after : nat) :
  reachable log ->
  deliveries sid after log = drop after (stored sid log).
Proof.
  intros Hreach. unfold deliveries.
  rewrite (filter_numbered _ 1 after (reachable_ids log sid Hreach)).
  f_equal. lia.
Qed.

(** C8: for every stream and every position afterEventId, replay hands
    to deliver exactly the stored events of the stream whose eventId is
    greater than afterEventId, each once, in append order, which is the
    order of ascending eventId; for a stream the log does not know,
    replay delivers nothing and returns normally. *)
Theorem C8_replay_delivers_later_events_in_order
    (log : Log) (sid : string) (afterEventId : nat)
    (Hreach : reachable log) :
  let ds := deliveries sid afterEventId log in
  (forall e, In e ds <-> In e (stored sid log) /\ afterEventId < eventId e)
  /\ ds = drop afterEventId (stored sid log)
  /\ map eventId ds
     = seq (S afterEventId) (length (stored sid log) - afterEventId)
  /\ (log !! sid = None -> ds = [])
  /\ (forall (D : Type) (deliver : StreamEvent -> D -> D) (d : D),
        replay sid afterEventId deliver log d
        = fold_left (fun d e => deliver e d) ds d)
  /\ (forall (D : Type) (deliver : StreamEvent -> D -> D) (d : D),
        log !! sid = None -> replay sid afterEventId deliver log d = d).
Proof.
  intros ds. subst ds.
  split; [|split; [|split; [|split; [|split]]]].
  - intros e. unfold deliveries. rewrite filter_In, Nat.ltb_lt. reflexivity.
  - now apply deliveries_drop.
  - rewrite deliveries_drop by assumption.
    rewrite <- skipn_map, (reachable_ids log sid Hreach), skipn_seq.
    reflexivity.
  - intros Hnone. unfold deliveries, stored. now rewrite Hnone.
  - reflexivity.
  - intros D deliver d Hnone. unfold replay, deliveries, stored.
    now rewrite Hnone.
Qed.

Lemma sample_log_reachable : reachable sample_log.
Proof. repeat apply reachable_append. apply reachable_empty. Qed.

Lemma C8_witness :
  deliveries "a" 1 sample_log
  = [mkEvent "a" 2 (note 2); mkEvent "a" 3 (note 3)]
  /\ deliveries "unknown" 0 sample_log = [].
Proof.
  destruct (C8_replay_delivers_later_events_in_order sample_log "a" 1
              sample_log_reachable) as (_ & Hdrop & _).
  split; [rewrite Hdrop; vm_compute; reflexivity|].
  vm_compute. reflexivity.
Defined.

End EventLogSpec.

(** * Further properties of the code *)

(** ** src/authentication.ts *)

Module AuthenticationMore.

Import JS JSFacts Authentication.

Lemma JS_or_agree (a b b' : option string) :
  truthy a = true \/ b = b' -> JS.or a b = JS.or a b'.
Proof. unfold JS.or. intros [->| ->]; reflexivity. Qed.

(** X1: whatever the configuration and the overrides, the parameters of
    the challenge come in the order realm, resource_metadata, error,
    error_description, error_uri, scope, each at most once, and error and
    error_description are always among them. *)
Theorem X1_params_in_order (o : OAuthConfig) (options : option Options) :
  sublist (map name_of (params o options)) parameter_order
  /\ In "error" (map name_of (params o options))
  /\ In "error_description" (map name_of (params o options))
  /\ 2 <= length (params o options) <= 6.
Proof.
  unfold params, push_if, parameter_order.
  destruct (truthy (realm o));
    destruct (protectedResource o) as [pr|];
    try destruct (truthy (resource pr));
    destruct (truthy (JS.or (opt error_uri options) (oauth_error_uri o)));
    destruct (truthy (JS.or (opt scope options) (oauth_scope o)));
    cbn [map app length name_of param String.append Ascii.eqb Bool.eqb];
    (split; [repeat first [apply sublist_nil | apply sublist_skip | apply sublist_cons]
            | split; [simpl; tauto | split; [simpl; tauto | lia]]]).
Qed.

(** X2: a non-empty override hides the configured value. Two
    configurations that agree on the realm and the protected resource,
    and on each of error, error_description, error_uri and scope for
    which the call gives no non-empty override, produce the same
    response, whatever their API keys. *)
Theorem X2_override_hides_configuration
    (k k' : option string) (o o' : OAuthConfig) (options : option Options)
    (Hrealm : realm o = realm o')
    (Hresource : protectedResource o = protectedResource o')
    (Herror : truthy (opt error options) = true \/ oauth_error o = oauth_error o')
    (Hdescription : truthy (opt error_description options) = true
                    \/ oauth_error_description o = oauth_error_description o')
    (Huri : truthy (opt error_uri options) = true
            \/ oauth_error_uri o = oauth_error_uri o')
    (Hscope : truthy (opt scope options) = true \/ oauth_scope o = oauth_scope o') :
  getUnauthorizedResponse (mkAuthConfig k (Some o)) options
  = getUnauthorizedResponse (mkAuthConfig k' (Some o')) options.
Proof.
  assert (Hparams : params o options = params o' options).
  { unfold params.
    rewrite Hrealm, Hresource,
      (JS_or_agree _ _ _ Herror), (JS_or_agree _ _ _ Hdescription),
      (JS_or_agree _ _ _ Huri), (JS_or_agree _ _ _ Hscope).
    reflexivity. }
  unfold getUnauthorizedResponse, response_headers. cbn [oauth].
  now rewrite Hparams.
Qed.

Lemma X2_witness :
  getUnauthorizedResponse config_with_description
    (Some (mkOptions (Some "invalid_token") (Some "Options error description")
             None None))
  = getUnauthorizedResponse (with_resource "https://example.com")
      (Some (mkOptions (Some "invalid_token") (Some "Options error description")
               None None)).
Proof.
  apply X2_override_hides_configuration; try reflexivity;
    first [left; reflexivity | right; reflexivity].
Defined.

(** The escaped text never starts with a bare double quote. *)
Lemma escape_quotes_head (s r : string) :
  escape_quotes s <> String dquote_char r.
Proof.
  destruct s as [|c s]; [discriminate|]. simpl.
  destruct (Ascii.eqb c dquote_char) eqn:Hc; [discriminate|].
  intros [= -> _]. discriminate.
Qed.

(** X3: escaping the double quotes of a description loses nothing: two
    descriptions with the same escaped text are equal. *)
Theorem X3_escape_quotes_injective (s1 s2 : string)
    (Heq : escape_quotes s1 = escape_quotes s2) :
  s1 = s2.
Proof.
  revert s2 Heq. induction s1 as [|c1 s1 IH]; intros [|c2 s2] Heq.
  - reflexivity.
  - exfalso. simpl in Heq. destruct (Ascii.eqb c2 dquote_char); discriminate.
  - exfalso. simpl in Heq. destruct (Ascii.eqb c1 dquote_char); discriminate.
  - simpl in Heq.
    destruct (Ascii.eqb c1 dquote_char) eqn:H1;
      destruct (Ascii.eqb c2 dquote_char) eqn:H2.
    + apply Ascii.eqb_eq in H1, H2. injection Heq as Heq.
      f_equal; [congruence | now apply IH].
    + exfalso. injection Heq as <- Heq.
      exact (escape_quotes_head s2 _ (eq_sym Heq)).
    + exfalso. injection Heq as -> Heq.
      exact (escape_quotes_head s1 _ Heq).
    + injection Heq as -> Heq. f_equal. now apply IH.
Qed.

Lemma X3_witness : "Token expired" = "Token expired".
Proof. apply X3_escape_quotes_injective. reflexivity. Defined.

(** X4: a description that holds no backslash is recovered from its
    escaped text by the quoted-string reading, in which a backslash
    makes the next character literal. *)
Theorem X4_escaped_description_reads_back (s : string)
    (Hplain : has_char backslash_char s = false) :
  unescape_pairs (escape_quotes s) = s.
Proof.
  induction s as [|c s IH]; [reflexivity|].
  cbn [has_char] in Hplain. apply orb_false_iff in Hplain as [Hc Hs].
  cbn [escape_quotes].
  destruct (Ascii.eqb c dquote_char) eqn:Hq.
  - apply Ascii.eqb_eq in Hq. subst c. cbn. now rewrite IH.
  - cbn [unescape_pairs]. rewrite Hc. now rewrite IH.
Qed.

Lemma X4_witness :
  unescape_pairs (escape_quotes ("Token " ++ q "abc123" ++ " is invalid"))
  = "Token " ++ q "abc123" ++ " is invalid".
Proof. apply X4_escaped_description_reads_back. reflexivity. Defined.

(** X5: every unauthorized response has Content-Type application/json;
    it has a WWW-Authenticate header exactly when an OAuth descriptor is
    configured; it has no other header; and the API key plays no part in
    it. *)
Theorem X5_response_headers_shape
    (config : AuthConfig) (options : option Options) :
  headers (getUnauthorizedResponse config options) !! "Content-Type"
  = Some "application/json"
  /\ (is_Some (headers (getUnauthorizedResponse config options) !! "WWW-Authenticate")
      <-> is_Some (oauth config))
  /\ (forall name, is_Some (headers (getUnauthorizedResponse config options) !! name) ->
        name = "Content-Type" \/ name = "WWW-Authenticate")
  /\ (forall k, getUnauthorizedResponse (mkAuthConfig k (oauth config)) options
                = getUnauthorizedResponse config options).
Proof.
  unfold getUnauthorizedResponse, response_headers. cbn [headers oauth].
  destruct (oauth config) as [o|].
  - cbv zeta.
    assert (Hguard : (0 <? length (params o options))%nat = true).
    { apply Nat.ltb_lt. pose proof (AuthenticationSpec.params_length o options). lia. }
    rewrite Hguard.
    split; [|split; [|split]].
    + rewrite lookup_insert_ne by (intros ?; discriminate).
      apply lookup_singleton_eq.
    + rewrite lookup_insert_eq. split; eauto.
    + intros name [v Hv].
      destruct (decide (name = "WWW-Authenticate")) as [->|Hne]; [now right|].
      rewrite lookup_insert_ne in Hv by congruence.
      apply lookup_singleton_Some in Hv as [<- _]. now left.
    + reflexivity.
  - split; [|split; [|split]].
    + apply lookup_singleton_eq.
    + rewrite lookup_singleton_ne by (intros ?; discriminate).
      split; intros [x Hx]; discriminate.
    + intros name [v Hv]. apply lookup_singleton_Some in Hv as [<- _]. now left.
    + reflexivity.
Qed.

(** What [createMockRequest] stores under a name: the value of the last
    header with that name, lowercased. *)
Lemma lowercaseHeaders_lookup (hs : list (string * string)) (name : string) :
  lowercaseHeaders hs !! name = HString <$> last_value name hs.
Proof.
  unfold lowercaseHeaders.
  enough (H : forall acc : gmap string HeaderValue,
             foldl (fun acc kv => <[ toLowerCase kv.1 := HString kv.2 ]> acc) acc hs
               !! name
             = match last_value name hs with
               | Some v => Some (HString v)
               | None => acc !! name
               end).
  { rewrite H. destruct (last_value name hs); [reflexivity|apply lookup_empty]. }
  induction hs as [|[n v] hs IH]; intros acc; [reflexivity|].
  cbn [foldl last_value fst snd]. rewrite IH.
  destruct (last_value name hs) as [v'|]; [reflexivity|].
  destruct (String.eqb_spec (toLowerCase n) name) as [->|Hne].
  - apply lookup_insert_eq.
  - now rewrite lookup_insert_ne.
Qed.

Lemma toLowerCase_ascii_cons (c : ascii) (s : string) :
  nat_of_ascii c < 128 ->
  toLowerCase (String c s) = String (toLowerCase_char c) (toLowerCase s).
Proof.
  intros Hc. cbn [toLowerCase].
  destruct s as [|c2 [|c3 r]]; try reflexivity.
  unfold is_kelvin_sign.
  destruct (Nat.eqb_spec (nat_of_ascii c) 226) as [Heq|_]; [lia|reflexivity].
Qed.

Lemma toLowerCase_char_same_letter (c d : ascii) :
  nat_of_ascii c < 128 ->
  negb ((65 <=? nat_of_ascii d) && (nat_of_ascii d <=? 90))%nat = true ->
  toLowerCase_char c = d <-> same_letter c d = true.
Proof.
  intros Hc Hd. unfold toLowerCase_char, same_letter.
  assert (Hinj : forall a b : ascii, nat_of_ascii a = nat_of_ascii b -> a = b).
  { intros a b Hab. rewrite <- (ascii_nat_embedding a), <- (ascii_nat_embedding b).
    now rewrite Hab. }
  apply negb_true_iff in Hd.
  destruct (Nat.leb_spec 65 (nat_of_ascii c)) as [H1|H1];
    destruct (Nat.leb_spec (nat_of_ascii c) 90) as [H2|H2];
    destruct (Nat.leb_spec 65 (nat_of_ascii d)) as [H3|H3];
    destruct (Nat.leb_spec (nat_of_ascii d) 90) as [H4|H4];
    try discriminate Hd;
    destruct (Nat.eqb_spec (nat_of_ascii c) (nat_of_ascii d)) as [H5|H5];
    destruct (Nat.eqb_spec (nat_of_ascii d) (nat_of_ascii c + 32)) as [H6|H6];
    destruct (Nat.eqb_spec (nat_of_ascii c) (nat_of_ascii d + 32)) as [H7|H7];
    cbn [andb orb]; try lia;
    (split; [intros Heq | intros Heq; try discriminate Heq]);
    try reflexivity;
    try (apply Hinj; rewrite ?nat_ascii_embedding by lia; lia);
    try (exfalso; apply (f_equal nat_of_ascii) in Heq;
         rewrite ?nat_ascii_embedding in Heq by lia; lia).
Qed.

(** On ASCII names, lowercasing to a name without capitals is comparing
    without regard to letter case. *)
Lemma toLowerCase_same_name (n name : string) :
  is_ascii n = true -> no_capital name = true ->
  String.eqb (toLowerCase n) name = same_name n name.
Proof.
  revert name. induction n as [|c n IH]; intros name Hn Hname.
  - destruct name; reflexivity.
  - cbn [is_ascii] in Hn. apply andb_true_iff in Hn as [Hc Hn].
    apply Nat.ltb_lt in Hc. rewrite toLowerCase_ascii_cons by assumption.
    destruct name as [|d name]; [reflexivity|].
    cbn [no_capital] in Hname. apply andb_true_iff in Hname as [Hd Hname].
    cbn [String.eqb same_name]. rewrite <- (IH name Hn Hname).
    pose proof (toLowerCase_char_same_letter c d Hc Hd) as Hiff.
    destruct (same_letter c d).
    + rewrite (proj2 Hiff eq_refl). now rewrite Ascii.eqb_refl.
    + destruct (Ascii.eqb_spec (toLowerCase_char c) d) as [Heq|_];
        [|reflexivity].
      apply Hiff in Heq. discriminate.
Qed.

Lemma last_value_last_named (name : string) (hs : list (string * string)) :
  Forall (fun kv => is_ascii kv.1 = true) hs -> no_capital name = true ->
  last_value name hs = last_named name hs.
Proof.
  intros Hhs Hname. induction Hhs as [|[n v] hs Hn Hhs IH]; [reflexivity|].
  cbn [last_value last_named]. rewrite IH.
  now rewrite (toLowerCase_same_name n name Hn Hname).
Qed.

(** X6: with a non-empty API key configured, a request built from a list
    of headers whose names are ASCII texts, as HTTP field names are, is
    valid exactly when the last header whose name is x-api-key in any
    letter case has the key as its value: earlier headers of that name
    and all other headers play no part. *)
Theorem X6_last_api_key_header_decides
    (key : string) (o : option OAuthConfig) (hs : list (string * string))
    (Hkey : key <> "")
    (Hnames : Forall (fun kv => is_ascii kv.1 = true) hs) :
  validateRequest (mkAuthConfig (Some key) o) (createMockRequest hs) = true
  <-> last_named "x-api-key" hs = Some key.
Proof.
  rewrite AuthenticationSpec.validateRequest_configured by assumption.
  unfold createMockRequest. cbn [req_headers].
  rewrite lowercaseHeaders_lookup.
  rewrite (last_value_last_named "x-api-key" hs Hnames eq_refl).
  destruct (last_named "x-api-key" hs) as [v|]; cbn.
  - rewrite String.eqb_eq. split; congruence.
  - split; discriminate.
Qed.

Lemma X6_witness :
  validateRequest (mkAuthConfig (Some "secret") None)
    (createMockRequest [("X-API-Key", "wrong"); ("Accept", "*/*");
                        ("x-api-KEY", "secret")]) = true.
Proof.
  apply X6_last_api_key_header_decides;
    [discriminate | repeat constructor | reflexivity].
Defined.

(** Outside ASCII, a name written with the Kelvin sign (U+212A) in
    place of the letter k is lowercased to x-api-key as well. *)
Example kelvin_sign_header_is_the_api_key_header :
  validateRequest (mkAuthConfig (Some "secret") None)
    (createMockRequest
       [("x-api-" ++ String (ascii_of_nat 226)
                       (String (ascii_of_nat 132)
                          (String (ascii_of_nat 170) "ey")),
         "secret")]) = true.
Proof. vm_compute. reflexivity. Qed.

End AuthenticationMore.

(** ** src/MCPProxy.ts: routing, sessions and shutdown *)

Module StartSSEServerMore.

Import JS Authentication StartSSEServer.

Section Routing.

Variable sessionId_param : string -> option string.
Variable endpoint : string.

Local Abbreviation route := (route sessionId_param endpoint).

Lemma method_is_true (req : IncomingMessage) (m : string) :
  method_is req m = true <-> method req = Some m.
Proof.
  unfold method_is. destruct (method req) as [m'|]; [|split; discriminate].
  rewrite String.eqb_eq. split; congruence.
Qed.

Lemma url_is_true (req : IncomingMessage) (u : string) :
  url_is req u = true <-> url req = Some u.
Proof.
  unfold url_is. destruct (url req) as [u'|]; [|split; discriminate].
  rewrite String.eqb_eq. split; congruence.
Qed.

Lemma inherited_true (name : string) :
  inherited name = true <-> In name Object_prototype_members.
Proof.
  unfold inherited. rewrite existsb_exists. split.
  - intros (x & Hin & Heq). apply String.eqb_eq in Heq. now subst x.
  - intros Hin. exists name. split; [exact Hin | apply String.eqb_refl].
Qed.

Lemma inherited_false (name : string) :
  inherited name = false <-> ~ In name Object_prototype_members.
Proof.
  rewrite <- inherited_true. destruct (inherited name); split; congruence.
Qed.

(** X7: the listener hands a request to a session's transport only when
    the request is a POST whose path starts with /messages, whose
    sessionId query parameter is present and not empty, and whose
    session is in the registry - and it always does so then. The
    registry being a plain object, such a POST whose parameter names no
    session but a member every object inherits (constructor, toString,
    ...) finds that member instead of a transport: the call of
    handlePostMessage on it throws and the request gets no answer. Only
    when the parameter names neither is the answer 400 with
    [No active transport]. *)
Theorem X7_post_reaches_registered_sessions_only
    (st : State) (req : IncomingMessage) (sid : string) :
  (route st req = PostMessage sid
   <-> method req = Some "POST"
       /\ exists u, url req = Some u
                    /\ startsWith u "/messages" = true
                    /\ sessionId_param u = Some sid
                    /\ sid <> ""
                    /\ is_Some (activeTransports st !! sid))
  /\ (route st req = NotATransport sid
      <-> method req = Some "POST"
          /\ exists u, url req = Some u
                       /\ startsWith u "/messages" = true
                       /\ sessionId_param u = Some sid
                       /\ sid <> ""
                       /\ activeTransports st !! sid = None
                       /\ In sid Object_prototype_members)
  /\ (route st req = Head 400 (Some "No active transport")
      <-> method req = Some "POST"
          /\ exists u s, url req = Some u
                         /\ startsWith u "/messages" = true
                         /\ sessionId_param u = Some s
                         /\ s <> ""
                         /\ activeTransports st !! s = None
                         /\ ~ In s Object_prototype_members).
Proof.
  unfold StartSSEServer.route.
  destruct (method_is req "OPTIONS") eqn:Hopt.
  { apply method_is_true in Hopt.
    split; [|split]; (split; [discriminate | intros [Hm _]; congruence]). }
  destruct (method_is req "GET") eqn:Hget.
  { apply method_is_true in Hget.
    assert (Hpost : method_is req "POST" = false).
    { unfold method_is. now rewrite Hget. }
    rewrite Hpost. cbn [andb].
    destruct (url_is req "/ping"); [|destruct (url_is req endpoint)];
      (split; [|split]; (split; [discriminate | intros [Hm _]; congruence])). }
  cbn [andb].
  destruct (method_is req "POST") eqn:Hpost; cbn [andb].
  2:{ split; [|split];
        (split; [discriminate|]; intros [Hm _];
         apply method_is_true in Hm; congruence). }
  apply method_is_true in Hpost.
  destruct (url req) as [u|] eqn:Hu.
  2:{ split; [|split]; (split; [discriminate|]).
      - intros (_ & u & Hu' & _). discriminate.
      - intros (_ & u & Hu' & _). discriminate.
      - intros (_ & u & s & Hu' & _). discriminate. }
  destruct (startsWith u "/messages") eqn:Hprefix.
  2:{ split; [|split]; (split; [discriminate|]).
      - intros (_ & u' & [= <-] & Hp & _). congruence.
      - intros (_ & u' & [= <-] & Hp & _). congruence.
      - intros (_ & u' & s & [= <-] & Hp & _). congruence. }
  cbn [default from_option id].
  destruct (sessionId_param u) as [[|c s]|] eqn:Hparam;
    cbn [truthy negb default from_option id].
  - split; [|split]; (split; [discriminate|]).
    + intros (_ & u' & [= <-] & _ & Hs & Hne & _). congruence.
    + intros (_ & u' & [= <-] & _ & Hs & Hne & _). congruence.
    + intros (_ & u' & s & [= <-] & _ & Hs & Hne & _). congruence.
  - unfold get_transport.
    destruct (activeTransports st !! String c s) as [t|] eqn:Hlook.
    + split; [|split]; split.
      * intros [= <-]. split; [assumption|].
        exists u. repeat split; try assumption; try discriminate. eauto.
      * intros (_ & u' & [= <-] & _ & Hs & _). congruence.
      * discriminate.
      * intros (_ & u' & [= <-] & _ & Hs & _ & Hnone & _). congruence.
      * discriminate.
      * intros (_ & u' & s' & [= <-] & _ & Hs & _ & Hnone & _). congruence.
    + destruct (inherited (String c s)) eqn:Hinh.
      * apply inherited_true in Hinh.
        split; [|split]; split.
        -- discriminate.
        -- intros (_ & u' & [= <-] & _ & Hs & _ & [t Ht]). congruence.
        -- intros [= <-]. split; [assumption|].
           exists u. repeat split; try assumption; discriminate.
        -- intros (_ & u' & [= <-] & _ & Hs & _). congruence.
        -- discriminate.
        -- intros (_ & u' & s' & [= <-] & _ & Hs & _ & _ & Hno).
           exfalso. apply Hno. congruence.
      * apply inherited_false in Hinh.
        split; [|split]; split.
        -- discriminate.
        -- intros (_ & u' & [= <-] & _ & Hs & _ & [t Ht]). congruence.
        -- discriminate.
        -- intros (_ & u' & [= <-] & _ & Hs & _ & _ & Hin).
           exfalso. apply Hinh. congruence.
        -- intros _. split; [assumption|].
           exists u, (String c s). repeat split; try assumption; discriminate.
        -- reflexivity.
  - split; [|split]; (split; [discriminate|]).
    + intros (_ & u' & [= <-] & _ & Hs & _). congruence.
    + intros (_ & u' & [= <-] & _ & Hs & _). congruence.
    + intros (_ & u' & s & [= <-] & _ & Hs & _). congruence.
Qed.

(** X8: a session is opened exactly by a GET whose path is the
    configured endpoint, provided the endpoint is not /ping: the liveness
    route is tested first, so an endpoint of /ping can never open a
    session, and no other method or path ever does. *)
Theorem X8_stream_opened_by_get_on_endpoint_only
    (st : State) (req : IncomingMessage) :
  route st req = EventStream
  <-> method req = Some "GET" /\ url req = Some endpoint /\ endpoint <> "/ping".
Proof.
  unfold StartSSEServer.route.
  destruct (method_is req "OPTIONS") eqn:Hopt.
  { apply method_is_true in Hopt. split; [discriminate|].
    intros [Hm _]. congruence. }
  destruct (method_is req "GET") eqn:Hget; cbn [andb].
  - apply method_is_true in Hget.
    assert (Hpost : method_is req "POST" = false).
    { unfold method_is. now rewrite Hget. }
    rewrite Hpost. cbn [andb].
    destruct (url_is req "/ping") eqn:Hping.
    + apply url_is_true in Hping. split; [discriminate|].
      intros (_ & Hu & Hne). congruence.
    + destruct (url_is req endpoint) eqn:Hend.
      * apply url_is_true in Hend. split; [|reflexivity].
        intros _. repeat split; try assumption.
        intros ->. apply url_is_true in Hend. congruence.
      * split; [discriminate|]. intros (_ & Hu & _).
        apply url_is_true in Hu. congruence.
  - assert (Hno : method req <> Some "GET").
    { intros Hm. apply method_is_true in Hm. congruence. }
    destruct (method_is req "POST" && _).
    + destruct (negb _); [|destruct (get_transport _ _)];
        (split; [discriminate | intros [Hm _]; contradiction]).
    + split; [discriminate | intros [Hm _]; contradiction].
Qed.

(** X9: a session accepts messages from the end of its set-up until its
    response closes. The session id is the one the transport minted, a
    UUID, so it is not the name of a member the registry inherits. For a
    POST under /messages that names the session, the listener forwards
    it once the session is opened, and answers 400 with
    [No active transport] once the response has closed, whether or not
    closing the server succeeded. *)
Theorem X9_session_reachable_until_closed
    (onConnect onClose : bool) (st : State) (res srv : nat) (sid u : string)
    (result : Settled) (req : IncomingMessage)
    (Hmethod : method req = Some "POST")
    (Hurl : url req = Some u)
    (Hprefix : startsWith u "/messages" = true)
    (Hparam : sessionId_param u = Some sid)
    (Hsid : sid <> "")
    (Hminted : ~ In sid Object_prototype_members) :
  let opened :=
    open_session onConnect res sid (mkSetUp (Some srv) Resolved Resolved) st in
  route opened req = PostMessage sid
  /\ route (res_close onClose res result opened) req
     = Head 400 (Some "No active transport").
Proof.
  intros opened.
  assert (Hopt : method_is req "OPTIONS" = false).
  { unfold method_is. now rewrite Hmethod. }
  assert (Hget : method_is req "GET" = false).
  { unfold method_is. now rewrite Hmethod. }
  assert (Hpost : method_is req "POST" = true).
  { unfold method_is. now rewrite Hmethod. }
  apply inherited_false in Hminted.
  assert (Hroute : forall st0,
            route st0 req
            = match activeTransports st0 !! sid with
              | None => Head 400 (Some "No active transport")
              | Some _ => PostMessage sid
              end).
  { intros st0. unfold StartSSEServer.route, get_transport.
    rewrite Hopt, Hget, Hpost, Hurl, Hprefix. cbn [andb default from_option id].
    rewrite Hparam. cbn [default from_option id].
    rewrite Hminted.
    destruct sid; [congruence|]. cbn [truthy negb].
    destruct (activeTransports st0 !! _); reflexivity. }
  assert (Hlistener : closeListeners opened !! res = Some (mkSession sid srv)).
  { subst opened. unfold open_session. cbn [created connected sent].
    cbn [closeListeners]. apply lookup_insert_eq. }
  split; rewrite Hroute.
  - subst opened. unfold open_session. cbn [created connected sent activeTransports].
    destruct onConnect; cbn [activeTransports emit]; now rewrite lookup_insert_eq.
  - unfold res_close. rewrite Hlistener. rewrite SessionTeardownSpec.close_listener_unfold.
    unfold call_onClose, delete_transport.
    destruct onClose; cbn [activeTransports emit sessionId];
      now rewrite lookup_delete_eq.
Qed.

End Routing.

Lemma X9_witness :
  route (fun _ => Some "abc") "/sse"
    (res_close true 1 (RejectedWith "socket error") one_session)
    (mkRequest (Some "POST") (Some "/messages?sessionId=abc") ∅)
  = Head 400 (Some "No active transport").
Proof.
  apply (X9_session_reachable_until_closed (fun _ => Some "abc") "/sse"
           true true idle 1 7 "abc" "/messages?sessionId=abc"
           (RejectedWith "socket error")
           (mkRequest (Some "POST") (Some "/messages?sessionId=abc") ∅));
    first [reflexivity | discriminate
          | intros H; repeat (destruct H as [H|H]; [discriminate|]); exact H].
Defined.

Lemma open_session_resolved (onConnect : bool) (st : State) (res srv : nat)
    (sid : string) :
  let opened :=
    open_session onConnect res sid (mkSetUp (Some srv) Resolved Resolved) st in
  activeTransports opened = <[ sid := res ]> (activeTransports st)
  /\ closeListeners opened = <[ res := mkSession sid srv ]> (closeListeners st).
Proof.
  unfold open_session. cbn [created connected sent].
  destruct onConnect; split; reflexivity.
Qed.

Lemma res_close_registry (onClose : bool) (st : State) (res : nat) (s : Session)
    (result : Settled) :
  closeListeners st !! res = Some s ->
  activeTransports (res_close onClose res result st)
  = delete (sessionId s) (activeTransports st).
Proof.
  intros Hs. unfold res_close. rewrite Hs. rewrite SessionTeardownSpec.close_listener_unfold.
  unfold call_onClose, delete_transport, await_server_close.
  destruct onClose, result; reflexivity.
Qed.

(** X10: opening a session under a fresh id and closing its response
    leaves the registry as it was before the session, and the teardown
    of a session never touches the entry of a session with another
    id. *)
Theorem X10_teardown_restores_registry
    (onConnect onClose : bool) (st : State) (res srv : nat) (sid : string)
    (result : Settled)
    (Hfresh : activeTransports st !! sid = None) :
  let closed :=
    res_close onClose res result
      (open_session onConnect res sid (mkSetUp (Some srv) Resolved Resolved) st) in
  activeTransports closed = activeTransports st
  /\ forall (res' : nat) (s : Session) (result' : Settled) (sid' : string),
       closeListeners closed !! res' = Some s ->
       sid' <> sessionId s ->
       activeTransports (res_close onClose res' result' closed) !! sid'
       = activeTransports closed !! sid'.
Proof.
  intros closed.
  destruct (open_session_resolved onConnect st res srv sid) as [Hreg Hlisten].
  split.
  - subst closed.
    rewrite (res_close_registry onClose _ res (mkSession sid srv) result)
      by (rewrite Hlisten; apply lookup_insert_eq).
    rewrite Hreg. cbn [sessionId]. rewrite delete_insert_eq. now apply delete_id.
  - intros res' s result' sid' Hs Hne.
    rewrite (res_close_registry onClose _ res' s result' Hs).
    now rewrite lookup_delete_ne by congruence.
Qed.

Lemma X10_witness :
  activeTransports (res_close true 1 Resolved one_session) = ∅.
Proof.
  apply (X10_teardown_restores_registry true true idle 1 7 "abc" Resolved).
  reflexivity.
Defined.

(** *** Callbacks come in pairs *)

Lemma preceded_snoc (l : list Effect) (e : Effect) :
  preceded l ->
  (forall srv, e = OnCloseCalled srv -> In (OnConnectCalled srv) l) ->
  preceded (l ++ [e]).
Proof.
  intros Hl He pre post srv Heq.
  destruct post as [|y post _] using rev_ind.
  - apply app_inj_tail in Heq as [-> ->]. now apply He.
  - change (pre ++ OnCloseCalled srv :: post ++ [y])%list
      with (pre ++ (OnCloseCalled srv :: post) ++ [y])%list in Heq.
    rewrite app_assoc in Heq. apply app_inj_tail in Heq as [-> _].
    now apply (Hl pre post srv).
Qed.

Lemma paired_idle : paired idle.
Proof.
  split.
  - intros [|x pre] post srv Heq; discriminate.
  - intros res s Hs. unfold idle in Hs. cbn in Hs.
    rewrite lookup_empty in Hs. discriminate.
Qed.

Lemma paired_step (onClose : bool) (st : State) (e : Event) :
  paired st -> paired (step true onClose st e).
Proof.
  unfold paired. intros [Hpre Hlisten].
  destruct e as [res sid a|res result]; cbn [step].
  - unfold open_session.
    destruct (created a) as [srv|]; [|now split].
    destruct (connected a); [destruct (sent a)|]; try (split; assumption).
    unfold emit. cbn [effects closeListeners activeTransports]. split.
    + apply preceded_snoc; [assumption | discriminate].
    + intros res' s Hs. rewrite in_app_iff.
      destruct (decide (res = res')) as [<-|Hne].
      * rewrite lookup_insert_eq in Hs. injection Hs as <-. right. now left.
      * rewrite lookup_insert_ne in Hs by assumption. left. eauto.
  - unfold res_close. destruct (closeListeners st !! res) as [s|] eqn:Hs;
      [|now split].
    pose proof (Hlisten res s Hs) as Hconnected.
    rewrite SessionTeardownSpec.close_listener_unfold.
    unfold call_onClose, delete_transport, await_server_close, emit.
    destruct onClose, result; cbn [effects closeListeners]; split;
      try (intros res' s' Hs'; repeat (apply in_or_app; left); now eauto);
      repeat (apply preceded_snoc;
              [| first [ intros srv0 Hsrv0; discriminate Hsrv0
                       | intros srv0 [= <-];
                         repeat (apply in_or_app; left); exact Hconnected ]]);
      assumption.
Qed.

Lemma paired_run (onClose : bool) (es : list Event) (st : State) :
  paired st -> paired (run_events true onClose es st).
Proof.
  revert st. induction es as [|e es IH]; intros st Hst; [assumption|].
  cbn [run_events fold_left]. apply IH. now apply paired_step.
Qed.

(** X11: in every run of a gateway that was given an onConnect callback
    - sessions being opened and responses being closed in any order, with
    set-ups and closes that succeed or fail -, each call of onClose for a
    server comes after a call of onConnect for that server. *)
Theorem X11_onClose_only_after_onConnect
    (onClose : bool) (es : list Event) (pre post : list Effect) (srv : nat)
    (Hcalled : effects (run_events true onClose es idle)
               = (pre ++ OnCloseCalled srv :: post)%list) :
  In (OnConnectCalled srv) pre.
Proof.
  destruct (paired_run onClose es idle paired_idle) as [Hpre _].
  exact (Hpre pre post srv Hcalled).
Qed.

Lemma X11_witness :
  In (OnConnectCalled 7)
     [OnConnectCalled 7; ServerCloseSettled 7 (RejectedWith "socket error");
      ConsoleError "Error closing server:"].
Proof.
  apply (X11_onClose_only_after_onConnect true
           [Opened 1 "abc" (mkSetUp (Some 7) Resolved Resolved);
            Opened 2 "def" (mkSetUp (Some 8) (RejectedWith "refused") Resolved);
            ResponseClosed 2 Resolved;
            ResponseClosed 1 (RejectedWith "socket error")]
           _ [] 7).
  vm_compute. reflexivity.
Defined.

(** *** Shutdown *)

Lemma close_transports_all_resolved (ts : list nat) (transport_close : nat -> Settled) :
  (forall t, In t ts -> transport_close t = Resolved) ->
  close_transports ts transport_close
  = (map (fun t => TransportClosed t Resolved) ts, Resolved).
Proof.
  induction ts as [|t ts IH]; intros Hall; [reflexivity|].
  cbn [close_transports map]. rewrite (Hall t) by now left.
  rewrite IH by (intros t' Ht'; apply Hall; now right). reflexivity.
Qed.

(** X12: when every transport closes, shutting the gateway down closes
    each active transport once, in the order of the registry's values,
    then closes the HTTP server, last; the returned promise rejects
    exactly when the HTTP server reports an error, with that error. *)
Theorem X12_shutdown_closes_transports_then_server
    (ts : list nat) (transport_close : nat -> Settled) (http_error : option string)
    (Hall : forall t, In t ts -> transport_close t = Resolved) :
  close ts transport_close http_error
  = ((map (fun t => TransportClosed t Resolved) ts ++ [HttpServerClosed http_error])%list,
     match http_error with
     | Some e => RejectedWith e
     | None => Resolved
     end).
Proof.
  unfold close. now rewrite close_transports_all_resolved.
Qed.

Lemma X12_witness :
  close [1; 2] (fun _ => Resolved) None
  = ([TransportClosed 1 Resolved; TransportClosed 2 Resolved; HttpServerClosed None],
     Resolved).
Proof.
  apply (X12_shutdown_closes_transports_then_server [1; 2] (fun _ => Resolved) None).
  reflexivity.
Defined.

(** X13: when closing a transport fails, shutting the gateway down
    stops there: the transports after it in the registry are not closed,
    the HTTP server is not closed, and the returned promise rejects with
    the transport's error. *)
Theorem X13_shutdown_stops_at_first_failure
    (before after : list nat) (t : nat) (e : string)
    (transport_close : nat -> Settled) (http_error : option string)
    (Hbefore : forall t', In t' before -> transport_close t' = Resolved)
    (Hfails : transport_close t = RejectedWith e) :
  close (before ++ t :: after) transport_close http_error
  = ((map (fun t' => TransportClosed t' Resolved) before
        ++ [TransportClosed t (RejectedWith e)])%list,
     RejectedWith e).
Proof.
  unfold close.
  enough (H : close_transports (before ++ t :: after) transport_close
              = ((map (fun t' => TransportClosed t' Resolved) before
                    ++ [TransportClosed t (RejectedWith e)])%list,
                 RejectedWith e)) by now rewrite H.
  induction before as [|b before IH].
  - cbn [app close_transports map]. now rewrite Hfails.
  - cbn [app close_transports map]. rewrite (Hbefore b) by now left.
    rewrite IH by (intros t' Ht'; apply Hbefore; now right). reflexivity.
Qed.

Lemma X13_witness :
  close [1; 2; 3] (fun t => if Nat.eqb t 2 then RejectedWith "gone" else Resolved)
    None
  = ([TransportClosed 1 Resolved; TransportClosed 2 (RejectedWith "gone")],
     RejectedWith "gone").
Proof.
  apply (X13_shutdown_stops_at_first_failure [1] [3] 2 "gone"
           (fun t => if Nat.eqb t 2 then RejectedWith "gone" else Resolved) None).
  - intros t' [<-|[]]. reflexivity.
  - reflexivity.
Defined.

End StartSSEServerMore.

(** ** src/MCPProxy.ts: tapping more than once, and what a tap forwards *)

Module TapTransportMore.

Import TapTransport.

Section Generic.

Context {W : Type}.
Implicit Types (heap : Heap W) (obj : Transport W)
               (h : EventHandler W) (t : loc) (w : W).

(** X14: tapping a transport a second time stacks the taps. Each use of
    the twice-tapped transport publishes its event to the second handler,
    then to the first, and only then reaches the operation the transport
    had before any tap; a handler that throws stops the use there. *)
Theorem X14_second_tap_wraps_first heap t h1 h2 obj
    (Hobj : heap !! t = Some obj) :
  exists obj2,
    (tapTransport (tapTransport heap t h1).1 t h2).1 !! t = Some obj2
    /\ forall (op : Op) w,
         perform obj2 t op w
         = published_then h2 (published_then h1 (perform obj t)) op w.
Proof.
  exists (instrument t h2 (instrument t h1 obj)). split.
  - apply TapTransportSpec.tapTransport_lookup.
    now apply TapTransportSpec.tapTransport_lookup.
  - intros op w. rewrite TapTransportSpec.perform_instrumented.
    unfold published_then at 1 2.
    destruct (h2 (event_of_op op) w) as [[|e] w']; [|reflexivity].
    apply TapTransportSpec.perform_instrumented.
Qed.

(** X15: a tapped send, onmessage or onerror hands its original the
    first argument only, and publishes that argument in the event; a
    tapped close, start or onclose hands its original no argument at
    all. Further arguments of the caller are dropped. *)
Theorem X15_tap_forwards_first_argument_only t h obj (args : list Value) w :
  call (send (instrument t h obj)) t args w
  = match h (EvSend (arg0 args)) w with
    | (Throws e, w') => (Rejected e, w')
    | (Returns, w') => call (send obj) t [arg0 args] w'
    end
  /\ call_opt (onmessage (instrument t h obj)) t args w
     = match h (EvOnMessage (arg0 args)) w with
       | (Throws e, w') => (Rejected e, w')
       | (Returns, w') => call_opt (onmessage obj) t [arg0 args] w'
       end
  /\ call_opt (onerror (instrument t h obj)) t args w
     = match h (EvOnError (arg0 args)) w with
       | (Throws e, w') => (Rejected e, w')
       | (Returns, w') => call_opt (onerror obj) t [arg0 args] w'
       end
  /\ call (close (instrument t h obj)) t args w
     = match h EvClose w with
       | (Throws e, w') => (Rejected e, w')
       | (Returns, w') => call (close obj) t [] w'
       end
  /\ call (start (instrument t h obj)) t args w
     = match h EvStart w with
       | (Throws e, w') => (Rejected e, w')
       | (Returns, w') => call (start obj) t [] w'
       end
  /\ call_opt (onclose (instrument t h obj)) t args w
     = match h EvOnClose w with
       | (Throws e, w') => (Rejected e, w')
       | (Returns, w') => call_opt (onclose obj) t [] w'
       end.
Proof.
  repeat split; cbn [instrument send onmessage onerror close start onclose
                     call call_opt event_of forwarded];
    destruct (h _ w) as [[|e] w']; try reflexivity.
  - destruct (onmessage obj); reflexivity.
  - destruct (onerror obj); reflexivity.
  - destruct (onclose obj); reflexivity.
Qed.

End Generic.

Lemma X14_witness :
  exists obj2,
    (tapTransport (tapTransport heap0 0 quiet).1 0 failing).1 !! 0 = Some obj2
    /\ perform obj2 0 (OpSend ping) [] = (Rejected (VError "handler failed"), []).
Proof.
  destruct (X14_second_tap_wraps_first heap0 0 quiet failing plain_transport eq_refl)
    as (obj2 & Hlook & Hperform).
  exists obj2. split; [exact Hlook|]. rewrite Hperform. reflexivity.
Defined.



End TapTransportMore.

(** ** src/MCPProxy.ts: wiring a server more than once *)

Module ProxyServerMore.

Import ProxyServer.

Lemma Server_eq (s s' : Server) :
  (forall k, requestHandlers s !! k = requestHandlers s' !! k) ->
  (forall k, notificationHandlers s !! k = notificationHandlers s' !! k) ->
  s = s'.
Proof.
  destruct s as [r n], s' as [r' n']. cbn. intros Hr Hn.
  f_equal; now apply map_eq.
Qed.

(** The two tables after [proxyServer], entry by entry. *)
Lemma proxyServer_requestHandlers
    (server : Server) (client : nat) (caps : option ServerCapabilities)
    (schema : Schema) :
  requestHandlers (proxyServer server client caps) !! schema
  = match request_wiring client caps schema with
    | Some h => Some h
    | None => requestHandlers server !! schema
    end.
Proof.
  unfold proxyServer, request_wiring.
  destruct (has logging caps), (has prompts caps), (has resources caps),
    (has tools caps);
    cbn [requestHandlers setRequestHandler setNotificationHandler];
    rewrite ?lookup_insert; destruct schema; reflexivity.
Qed.

Lemma proxyServer_notificationHandlers
    (server : Server) (client : nat) (caps : option ServerCapabilities)
    (schema : Schema) :
  notificationHandlers (proxyServer server client caps) !! schema
  = match notification_wiring client caps schema with
    | Some h => Some h
    | None => notificationHandlers server !! schema
    end.
Proof.
  unfold proxyServer, notification_wiring.
  destruct (has logging caps), (has prompts caps), (has resources caps),
    (has tools caps);
    cbn [notificationHandlers setRequestHandler setNotificationHandler];
    rewrite ?lookup_insert; destruct schema; reflexivity.
Qed.

Lemma request_wiring_upstream (client : nat) (caps : option ServerCapabilities)
    (schema : Schema) (h : Handler) :
  request_wiring client caps schema = Some h -> upstream h = client.
Proof.
  unfold request_wiring.
  destruct schema, (has prompts caps), (has resources caps), (has tools caps);
    intros [= <-]; reflexivity.
Qed.

Lemma notification_wiring_upstream (client : nat) (caps : option ServerCapabilities)
    (schema : Schema) (h : Handler) :
  notification_wiring client caps schema = Some h -> upstream h = client.
Proof.
  unfold notification_wiring.
  destruct schema, (has logging caps); intros [= <-]; reflexivity.
Qed.

Lemma request_wiring_same_shape (c c' : nat) (caps : option ServerCapabilities)
    (schema : Schema) :
  request_wiring c caps schema = None -> request_wiring c' caps schema = None.
Proof.
  unfold request_wiring.
  destruct schema, (has prompts caps), (has resources caps), (has tools caps);
    intros H; try discriminate H; reflexivity.
Qed.

Lemma notification_wiring_same_shape (c c' : nat) (caps : option ServerCapabilities)
    (schema : Schema) :
  notification_wiring c caps schema = None -> notification_wiring c' caps schema = None.
Proof.
  unfold notification_wiring.
  destruct schema, (has logging caps); intros H; try discriminate H; reflexivity.
Qed.

(** X17: wiring a server that is already wired replaces the earlier
    wiring: after proxyServer with one client and then with another,
    under the same capability snapshot, the server is the one proxyServer
    with the second client alone produces; in particular wiring twice
    with the same client changes nothing. *)
Theorem X17_rewiring_replaces
    (server : Server) (c1 c2 : nat) (caps : option ServerCapabilities) :
  proxyServer (proxyServer server c1 caps) c2 caps = proxyServer server c2 caps
  /\ proxyServer (proxyServer server c1 caps) c1 caps = proxyServer server c1 caps.
Proof.
  assert (H : forall c c', proxyServer (proxyServer server c caps) c' caps
                           = proxyServer server c' caps).
  { intros c c'. apply Server_eq; intros k.
    - rewrite !proxyServer_requestHandlers.
      destruct (request_wiring c' caps k) eqn:Hc'; [reflexivity|].
      now rewrite (request_wiring_same_shape c' c caps k Hc').
    - rewrite !proxyServer_notificationHandlers.
      destruct (notification_wiring c' caps k) eqn:Hc'; [reflexivity|].
      now rewrite (notification_wiring_same_shape c' c caps k Hc'). }
  split; apply H.
Qed.

(** X18: proxyServer only adds. It never removes a handler; the handlers
    it leaves in the two tables are those that were there or forward to
    the client it was given; it writes the logging schema in the
    notification table only and every other schema in the request table
    only. *)
Theorem X18_proxyServer_only_adds
    (server : Server) (client : nat) (caps : option ServerCapabilities)
    (schema : Schema) :
  (is_Some (requestHandlers server !! schema) ->
   is_Some (requestHandlers (proxyServer server client caps) !! schema))
  /\ (is_Some (notificationHandlers server !! schema) ->
      is_Some (notificationHandlers (proxyServer server client caps) !! schema))
  /\ (forall h, requestHandlers (proxyServer server client caps) !! schema = Some h ->
        requestHandlers server !! schema = Some h \/ upstream h = client)
  /\ (forall h, notificationHandlers (proxyServer server client caps) !! schema = Some h ->
        notificationHandlers server !! schema = Some h \/ upstream h = client)
  /\ requestHandlers (proxyServer server client caps) !! LoggingMessageNotificationSchema
     = requestHandlers server !! LoggingMessageNotificationSchema
  /\ (schema <> LoggingMessageNotificationSchema ->
      notificationHandlers (proxyServer server client caps) !! schema
      = notificationHandlers server !! schema).
Proof.
  rewrite !proxyServer_requestHandlers, !proxyServer_notificationHandlers.
  split; [|split; [|split; [|split; [|split]]]].
  - destruct (request_wiring client caps schema); eauto.
  - destruct (notification_wiring client caps schema); eauto.
  - intros h. destruct (request_wiring client caps schema) as [h'|] eqn:Hw;
      [|now left].
    intros [= <-]. right. exact (request_wiring_upstream _ _ _ _ Hw).
  - intros h. destruct (notification_wiring client caps schema) as [h'|] eqn:Hw;
      [|now left].
    intros [= <-]. right. exact (notification_wiring_upstream _ _ _ _ Hw).
  - reflexivity.
  - intros Hne. destruct schema; try reflexivity. contradiction.
Qed.

End ProxyServerMore.

(** ** src/bin/mcp-proxy.ts *)

Module McpProxyBinMore.

Import JS McpProxyBin.

Lemma indexOf_range (x : string) (l : list string) :
  (indexOf x l = -1 \/ 0 <= indexOf x l)%Z.
Proof.
  induction l as [|y l IH]; [now left|]. cbn [indexOf].
  destruct (String.eqb y x); [right; lia|].
  destruct (Z.eqb_spec (indexOf x l) (-1)); [now left | right; lia].
Qed.

Lemma indexOf_absent (x : string) (l : list string) :
  indexOf x l = (-1)%Z <-> ~ In x l.
Proof.
  induction l as [|y l IH]; [cbn; tauto|]. cbn [indexOf In].
  destruct (String.eqb_spec y x) as [->|Hne].
  - split; [discriminate | tauto].
  - destruct (Z.eqb_spec (indexOf x l) (-1)) as [Hi|Hi].
    + split; [|reflexivity]. intros _ [Hy|Hin]; [congruence|]. now apply IH.
    + pose proof (indexOf_range x l). split; [lia|].
      intros Hnot. exfalso. apply Hi, IH. tauto.
Qed.

Lemma indexOf_split (x : string) (l : list string) :
  In x l ->
  l = (take (Z.to_nat (indexOf x l)) l
         ++ x :: drop (S (Z.to_nat (indexOf x l))) l)%list
  /\ ~ In x (take (Z.to_nat (indexOf x l)) l)
  /\ (0 <= indexOf x l)%Z.
Proof.
  induction l as [|y l IH]; [intros []|]. intros Hin. cbn [indexOf].
  destruct (String.eqb_spec y x) as [->|Hne].
  - cbn. repeat split; [tauto | lia].
  - destruct Hin as [Hy|Hin]; [congruence|].
    destruct (IH Hin) as (Hsplit & Hbefore & Hpos).
    destruct (Z.eqb_spec (indexOf x l) (-1)) as [Hi|Hi]; [lia|].
    replace (Z.to_nat (indexOf x l + 1)) with (S (Z.to_nat (indexOf x l))) by lia.
    cbn [take drop app]. repeat split.
    + f_equal. exact Hsplit.
    + intros [Hy|Hin']; [congruence | contradiction].
    + lia.
Qed.

(** X19: the command line is cut at the first [--]. When the arguments
    hold a separator, what goes to the option parser, the separator and
    what follows it make up the arguments again, and nothing that goes to
    the option parser is a separator - later separators stay with the
    command's arguments. Without a separator everything goes to the
    option parser and nothing follows. *)
Theorem X19_arguments_cut_at_first_separator (args : list string) :
  ~ In "--" (mcpProxyArgs args)
  /\ (In "--" args ->
      args = (mcpProxyArgs args ++ "--" :: commandAndArgs args)%list)
  /\ (~ In "--" args -> mcpProxyArgs args = args /\ commandAndArgs args = []).
Proof.
  unfold mcpProxyArgs, commandAndArgs, doubleDashIndex, slice_to, slice_from.
  destruct (Z.eqb_spec (indexOf "--" args) (-1)) as [Hi|Hi]; cbn [negb].
  - apply indexOf_absent in Hi. repeat split; tauto.
  - assert (Hin : In "--" args).
    { destruct (in_dec string_dec "--" args) as [H|H]; [exact H|].
      apply indexOf_absent in H. contradiction. }
    destruct (indexOf_split "--" args Hin) as (Hsplit & Hbefore & Hpos).
    replace (Z.to_nat (indexOf "--" args + 1))
      with (S (Z.to_nat (indexOf "--" args))) by lia.
    repeat split; [exact Hbefore | intros _; exact Hsplit | contradiction
                  | contradiction ].
Qed.

Lemma X19_witness :
  ["--port"; "8080"; "--"; "npx"; "server"; "--"; "-v"]
  = (mcpProxyArgs ["--port"; "8080"; "--"; "npx"; "server"; "--"; "-v"]
       ++ "--" :: commandAndArgs ["--port"; "8080"; "--"; "npx"; "server"; "--"; "-v"])%list
  /\ commandAndArgs ["--port"; "8080"; "--"; "npx"; "server"; "--"; "-v"]
     = ["npx"; "server"; "--"; "-v"].
Proof.
  destruct (X19_arguments_cut_at_first_separator
              ["--port"; "8080"; "--"; "npx"; "server"; "--"; "-v"])
    as (_ & Hsplit & _).
  split; [|vm_compute; reflexivity].
  apply Hsplit. simpl. tauto.
Defined.

(** X20: the entry point fails exactly when the parsed command is
    missing or empty; when a separator is present, the arguments handed
    to the command are what follows the first separator, whatever the
    option parser took for positional arguments, and without a separator
    they are the parser's. *)
Theorem X20_command_arguments
    (args : list string) (argv : Argv) :
  ((exists message, finalCommandAndArgs args argv = inl message)
   <-> truthy (command argv) = false)
  /\ (forall cmd, command argv = Some cmd -> cmd <> "" ->
        (In "--" args ->
         finalCommandAndArgs args argv = inr (cmd, Some (commandAndArgs args)))
        /\ (~ In "--" args ->
            finalCommandAndArgs args argv = inr (cmd, McpProxyBin.args argv))).
Proof.
  unfold finalCommandAndArgs, doubleDashIndex.
  assert (Hsep : (indexOf "--" args =? -1)%Z = true <-> ~ In "--" args).
  { rewrite Z.eqb_eq. apply indexOf_absent. }
  split.
  - destruct (indexOf "--" args =? -1)%Z; cbn [negb];
      destruct (truthy (command argv)); cbn [negb];
      split; try discriminate; try reflexivity; eauto;
      intros [message Hm]; discriminate.
  - intros cmd Hcmd Hne. rewrite Hcmd.
    destruct cmd as [|c cmd]; [congruence|]. cbn [truthy negb default from_option id].
    split.
    + intros Hin. destruct (indexOf "--" args =? -1)%Z eqn:Hi; [|reflexivity].
      exfalso. now apply Hsep.
    + intros Hnot. destruct (indexOf "--" args =? -1)%Z eqn:Hi; [reflexivity|].
      exfalso. apply Hsep in Hnot. congruence.
Qed.

(** X21: with both endpoint options set (they have defaults) and a
    server option that the option parser lets through, the server option
    selects the families. Unset, both families are served; [sse] serves
    the legacy family only and [stream] the other only; and no family is
    served exactly when the option was given more than once, which makes
    it an array. The generic endpoint option is not consulted. *)
Theorem X21_server_option_selects_endpoints
    (argv : Argv) (sse stream : OptionValue)
    (Hsse : sseEndpoint argv = Some sse)
    (Hstream : streamEndpoint argv = Some stream)
    (Hallowed : server_allowed (server argv) = true) :
  (server argv = None ->
     sseEndpoint_option argv = Some sse /\ streamEndpoint_option argv = Some stream)
  /\ (server argv = Some (Single "sse") ->
        sseEndpoint_option argv = Some sse /\ streamEndpoint_option argv = None)
  /\ (server argv = Some (Single "stream") ->
        sseEndpoint_option argv = None /\ streamEndpoint_option argv = Some stream)
  /\ ((sseEndpoint_option argv = None /\ streamEndpoint_option argv = None)
      <-> exists l, server argv = Some (Repeated l)).
Proof.
  unfold sseEndpoint_option, streamEndpoint_option. rewrite Hsse, Hstream.
  cbn [nullish_or].
  split; [|split; [|split]].
  - intros ->. split; reflexivity.
  - intros ->. split; reflexivity.
  - intros ->. split; reflexivity.
  - destruct (server argv) as [[v|l]|]; cbn [value_truthy differs_from andb].
    + cbn [server_allowed] in Hallowed. unfold is_choice in Hallowed.
      apply orb_true_iff in Hallowed as [Hv|Hv]; apply String.eqb_eq in Hv;
        subst v; cbn; (split; [intros [H1 H2]; discriminate|]);
        intros [l Hl]; discriminate.
    + split; [eauto | intros _; split; reflexivity].
    + split; [intros [H _]; discriminate | intros [l Hl]; discriminate].
Qed.

Lemma X21_witness :
  sseEndpoint_option
    (mkArgv (Some "npx") None (Some (Repeated ["sse"; "stream"])) None
       (Some (Single "/sse")) (Some (Single "/mcp")))
  = None
  /\ streamEndpoint_option
       (mkArgv (Some "npx") None (Some (Repeated ["sse"; "stream"])) None
          (Some (Single "/sse")) (Some (Single "/mcp")))
     = None.
Proof.
  destruct (X21_server_option_selects_endpoints
              (mkArgv (Some "npx") None (Some (Repeated ["sse"; "stream"])) None
                 (Some (Single "/sse")) (Some (Single "/mcp")))
              (Single "/sse") (Single "/mcp") eq_refl eq_refl eq_refl)
    as (_ & _ & _ & Hnone).
  apply Hnone. eauto.
Defined.

End McpProxyBinMore.
